(** * A custom differentiable linear layer: model and verification

    The notebook [how_to_make_own_layers_activation_functions_or_losses_for_a_neural_network]
    defines an autograd function [LinearFunction] (forward and backward
    pass of [y = x W^T + b]) and a module [Linear] that owns the
    parameters.  This development embeds both, together with the part of
    the tensor library they call, and states the layer's contract.

    Tensors are modelled the way the library has them: a tensor is a
    handle (storage, offset, sizes, strides) into a heap of flat
    storages, so that [t()], [unsqueeze], [expand_as] and [squeeze] are
    views sharing memory and [+=] and [uniform_] write in place.
    Scalars are an abstract type with a zero, an addition and a
    multiplication; no algebraic law is assumed of them. *)

From stdpp Require Import base list strings gmap pretty.
From Stdlib Require Import ZArith QArith Lia.

Local Close Scope Q_scope.
Local Close Scope Z_scope.
Local Open Scope nat_scope.

(** ** Scalars *)

Class Scalar (T : Type) := {
  szero : T;
  sadd : T → T → T;
  smul : T → T → T
}.

(** How the library turns one raw generator output into a sample of
    [uniform_(from, to)]. *)
Class Random (T : Type) := {
  uniform_real : N → Q → Q → T
}.

#[export] Instance Z_scalar : Scalar Z :=
  {| szero := 0%Z; sadd := Z.add; smul := Z.mul |}.

(** Scalars left uninterpreted: a constant, the sample the library makes
    of one raw generator output, or a sum or product of such.  Nothing is
    assumed of the library's arithmetic, its rounding included. *)
Inductive symbolic :=
| Const (q : Q)
| Sample (val : N) (from to : Q)
| Plus (a b : symbolic)
| Times (a b : symbolic).

#[export] Instance symbolic_scalar : Scalar symbolic :=
  {| szero := Const 0; sadd := Plus; smul := Times |}.

#[export] Instance symbolic_random : Random symbolic :=
  {| uniform_real := Sample |}.

(** ** Tensors, heap and exceptions *)

Record tensor := mk_tensor {
  storage : nat;
  storage_offset : nat;
  sizes : list nat;
  strides : list nat;
  requires_grad : bool
}.

Record world (T : Type) := mk_world {
  heap : list (list T);
  generator : nat → N;
  consumed : nat;
  junk : nat → T
}.
Arguments mk_world {T}.
Arguments heap {T}.
Arguments generator {T}.
Arguments consumed {T}.
Arguments junk {T}.

Inductive torch_error :=
| size_mismatch (m1 m2 : list nat)
| not_a_matrix (shape : list nat)
| not_expandable (shape target : list nat).

Inductive exception :=
| RuntimeError (e : torch_error)
| AttributeError (attr : string)
| ValueError (expected got : nat).

Inductive result (A : Type) :=
| Ok (a : A)
| Raise (e : exception).
Arguments Ok {A}.
Arguments Raise {A}.

(** Computations thread the world; an exception keeps the world it was
    raised in, as a Python exception does. *)
Definition M (T A : Type) : Type := world T → result A * world T.

Definition ret {T A} (a : A) : M T A := fun w => (Ok a, w).

Definition raise {T A} (e : exception) : M T A := fun w => (Raise e, w).

Definition bind {T A B} (m : M T A) (k : A → M T B) : M T B := fun w =>
  match m w with
  | (Ok a, w') => k a w'
  | (Raise e, w') => (Raise e, w')
  end.

Notation "x <- m ;; k" := (bind m (fun x => k))
  (at level 100, m at next level, right associativity).

(** ** The tensor library *)

Module torch.
Section ops.
Context {T : Type} `{!Scalar T}.

Definition numel (shape : list nat) : nat := foldr Nat.mul 1 shape.

Fixpoint contiguous_strides (shape : list nat) : list nat :=
  match shape with
  | [] => []
  | _ :: rest => numel rest :: contiguous_strides rest
  end.

(** All index tuples of a shape, in row-major order. *)
Fixpoint indices (shape : list nat) : list (list nat) :=
  match shape with
  | [] => [[]]
  | s :: rest => flat_map (fun i => map (cons i) (indices rest)) (seq 0 s)
  end.

Definition address (a : tensor) (idx : list nat) : nat :=
  storage_offset a + sum_list (zip_with Nat.mul idx (strides a)).

(** Reading one element.  Handles made by the library stay inside
    their storage; a read outside of it is given the value zero. *)
Definition element (w : world T) (a : tensor) (idx : list nat) : T :=
  default szero (heap w !! storage a ≫= (.!! address a idx)).

Definition set_heap (h : list (list T)) (w : world T) : world T :=
  mk_world h (generator w) (consumed w) (junk w).

Definition new_tensor (shape : list nat) (data : list T) (rg : bool) : M T tensor :=
  fun w =>
    (Ok (mk_tensor (length (heap w)) 0 shape (contiguous_strides shape) rg),
     set_heap (heap w ++ [data]) w).

Definition write_all (a : tensor) (vals : list T) (d : list T) : list T :=
  foldl (fun d iv => <[address a iv.1 := iv.2]> d) d (zip (indices (sizes a)) vals).

(** In-place write of [vals], in row-major order, through the view [a]. *)
Definition store (a : tensor) (vals : list T) (w : world T) : world T :=
  set_heap (alter (write_all a vals) (storage a) (heap w)) w.

Definition with_view (a : tensor) (shape st : list nat) : tensor :=
  mk_tensor (storage a) (storage_offset a) shape st (requires_grad a).

(** [a.t()]: a view with the two dimensions swapped. *)
Definition t (a : tensor) : M T tensor :=
  match sizes a, strides a with
  | [n; m], [sn; sm] => ret (with_view a [m; n] [sm; sn])
  | [], _ | [_], _ => ret a
  | _, _ => raise (RuntimeError (not_a_matrix (sizes a)))
  end.

Definition mm_entry (w : world T) (a b : tensor) (n i j : nat) : T :=
  foldl (fun acc l => sadd acc (smul (element w a [i; l]) (element w b [l; j])))
        szero (seq 0 n).

Definition mm_data (w : world T) (a b : tensor) (m n k : nat) : list T :=
  flat_map (fun i => map (fun j => mm_entry w a b n i j) (seq 0 k)) (seq 0 m).

(** [a.mm(b)]: matrix product into a fresh contiguous tensor. *)
Definition mm (a b : tensor) : M T tensor := fun w =>
  match sizes a, sizes b with
  | [m; n], [n'; k] =>
      if decide (n = n') then
        new_tensor [m; k] (mm_data w a b m n k) (requires_grad a || requires_grad b) w
      else raise (RuntimeError (size_mismatch (sizes a) (sizes b))) w
  | [_; _], _ => raise (RuntimeError (not_a_matrix (sizes b))) w
  | _, _ => raise (RuntimeError (not_a_matrix (sizes a))) w
  end.

(** [a.unsqueeze(0)]: a view with a new leading dimension of size 1. *)
Definition unsqueeze0 (a : tensor) : M T tensor :=
  let st := match sizes a, strides a with
            | s :: _, st :: _ => s * st
            | _, _ => 1
            end in
  ret (with_view a (1 :: sizes a) (st :: strides a)).

(** Strides of an expanded view, dimensions aligned from the last one;
    all three lists are reversed. *)
Fixpoint expand_strides (szs sts target : list nat) : option (list nat) :=
  match target, szs, sts with
  | [], [], _ => Some []
  | [], _ :: _, _ => None
  | _ :: target', [], _ => (0 ::.) <$> expand_strides [] [] target'
  | d :: target', s :: szs', st :: sts' =>
      if decide (s = d) then (st ::.) <$> expand_strides szs' sts' target'
      else if decide (s = 1) then (0 ::.) <$> expand_strides szs' sts' target'
      else None
  | _ :: _, _ :: _, [] => None
  end.

Definition expand (a : tensor) (target : list nat) : M T tensor :=
  match expand_strides (reverse (sizes a)) (reverse (strides a)) (reverse target) with
  | Some st => ret (with_view a target (reverse st))
  | None => raise (RuntimeError (not_expandable (sizes a) target))
  end.

Definition expand_as (a other : tensor) : M T tensor := expand a (sizes other).

(** [self += other]: [other] is broadcast to the sizes of [self], the
    sums are written into the storage of [self]. *)
Definition iadd (self other : tensor) : M T tensor :=
  o <- expand_as other self ;;
  fun w =>
    let vals := map (fun idx => sadd (element w self idx) (element w o idx))
                    (indices (sizes self)) in
    (Ok self, store self vals w).

Definition sum0_entry (w : world T) (a : tensor) (s : nat) (idx : list nat) : T :=
  foldl (fun acc i => sadd acc (element w a (i :: idx))) szero (seq 0 s).

(** [a.sum(0)]: sum over the first dimension, which is dropped. *)
Definition sum0 (a : tensor) : M T tensor := fun w =>
  match sizes a with
  | [] => new_tensor [] [element w a []] (requires_grad a) w
  | s :: rest =>
      new_tensor rest (map (sum0_entry w a s) (indices rest)) (requires_grad a) w
  end.

(** [a.squeeze(0)]: a view without the first dimension when its size
    is 1, the tensor itself otherwise. *)
Definition squeeze0 (a : tensor) : M T tensor :=
  match sizes a, strides a with
  | 1 :: rest, _ :: st => ret (with_view a rest st)
  | _, _ => ret a
  end.

(** [torch.Tensor(shape)]: a fresh tensor over uninitialised memory. *)
Definition Tensor (shape : list nat) : M T tensor := fun w =>
  new_tensor shape (map (junk w) (seq 0 (numel shape))) false w.

Definition nn_Parameter (a : tensor) : tensor :=
  mk_tensor (storage a) (storage_offset a) (sizes a) (strides a) true.

Definition data (a : tensor) : tensor :=
  mk_tensor (storage a) (storage_offset a) (sizes a) (strides a) false.

Definition advance (n : nat) (w : world T) : world T :=
  mk_world (heap w) (generator w) (consumed w + n) (junk w).

(** [a.uniform_(from, to)]: every element is overwritten by its own
    draw, one generator output each, in row-major order. *)
Definition uniform_ `{!Random T} (a : tensor) (from to : Q) : M T unit := fun w =>
  let idxs := indices (sizes a) in
  let vals := map (fun p => uniform_real (generator w (consumed w + p)) from to)
                  (seq 0 (length idxs)) in
  (Ok (), advance (length idxs) (store a vals w)).

End ops.
End torch.

(** ** The autograd function *)

(** Python's [x is not None], for an optional argument. *)
Definition is_not_None {A} (x : option A) : bool :=
  match x with
  | Some _ => true
  | None => false
  end.

(** The context object of one forward/backward pair: what
    [save_for_backward] retained, and which inputs need a gradient. *)
Record FunctionCtx := mk_ctx {
  saved_tensors : option (tensor * tensor * option tensor);
  needs_input_grad : bool * bool * bool
}.

Module LinearFunction.
Section defs.
Context {T : Type} `{!Scalar T}.

Definition save_for_backward (ctx : FunctionCtx) (input weight : tensor)
    (bias : option tensor) : FunctionCtx :=
  mk_ctx (Some (input, weight, bias)) (needs_input_grad ctx).

(** The context is handed back together with the output. *)
Definition forward (ctx : FunctionCtx) (input weight : tensor) (bias : option tensor)
    : M T (FunctionCtx * tensor) :=
  let ctx := save_for_backward ctx input weight bias in
  wt <- torch.t weight ;;
  output <- torch.mm input wt ;;
  output <- match bias with
            | Some b =>
                u <- torch.unsqueeze0 b ;;
                e <- torch.expand_as u output ;;
                torch.iadd output e
            | None => ret output
            end ;;
  ret (ctx, output).

(** Unpacking [ctx.saved_tensors] into three names. *)
Definition unpack_saved (ctx : FunctionCtx) : M T (tensor * tensor * option tensor) :=
  match saved_tensors ctx with
  | Some s => ret s
  | None => raise (ValueError 3 0)
  end.

Definition backward (ctx : FunctionCtx) (grad_output : tensor)
    : M T (option tensor * option tensor * option tensor) :=
  s <- unpack_saved ctx ;;
  let input := s.1.1 in
  let weight := s.1.2 in
  let bias := s.2 in
  grad_input <- (if (needs_input_grad ctx).1.1
                 then g <- torch.mm grad_output weight ;; ret (Some g)
                 else ret None) ;;
  grad_weight <- (if (needs_input_grad ctx).1.2
                  then gt <- torch.t grad_output ;;
                       g <- torch.mm gt input ;; ret (Some g)
                  else ret None) ;;
  grad_bias <- (if is_not_None bias && (needs_input_grad ctx).2
                then s <- torch.sum0 grad_output ;;
                     g <- torch.squeeze0 s ;; ret (Some g)
                else ret None) ;;
  ret (grad_input, grad_weight, grad_bias).

(** [LinearFunction.apply]: the engine makes the context, marking the
    inputs that require a gradient, and runs [forward]. *)
Definition apply (input weight : tensor) (bias : option tensor)
    : M T (FunctionCtx * tensor) :=
  forward (mk_ctx None (requires_grad input, requires_grad weight,
                        from_option requires_grad false bias))
          input weight bias.

End defs.
End LinearFunction.

(** ** The module *)

(** Attribute values of a module object. *)
Inductive value :=
| VInt (n : nat)
| VBool (b : bool)
| VNone
| VTensor (a : tensor).

Module Linear.
Section defs.
Context {T : Type} `{!Scalar T} `{!Random T}.

Definition getattr (self : gmap string value) (name : string) : M T value :=
  match self !! name with
  | Some v => ret v
  | None => raise (AttributeError name)
  end.

(** [v.data] *)
Definition data_of (v : value) : M T tensor :=
  match v with
  | VTensor a => ret (torch.data a)
  | _ => raise (AttributeError "data")
  end.

(** Truth value of the [bias] argument, a boolean or [None]. *)
Definition truthy (bias : option bool) : bool := default false bias.

Definition __init__ (input_features output_features : nat) (bias : option bool)
    : M T (gmap string value) :=
  let self : gmap string value := ∅ in
  let self := <["input_features" := VInt input_features]> self in
  let self := <["output_features" := VInt output_features]> self in
  w0 <- torch.Tensor [output_features; input_features] ;;
  let self := <["weight" := VTensor (torch.nn_Parameter w0)]> self in
  self <- (if truthy bias
           then b0 <- torch.Tensor [output_features] ;;
                ret (<["bias" := VTensor (torch.nn_Parameter b0)]> self)
           else ret (<["bias" := VNone]> self)) ;;
  weight <- getattr self "weight" ;;
  wd <- data_of weight ;;
  _ <- torch.uniform_ wd (- (1 # 10))%Q (1 # 10)%Q ;;
  _ <- (if is_not_None bias
        then b <- getattr self "bias" ;;
             bd <- data_of b ;;
             torch.uniform_ bd (- (1 # 10))%Q (1 # 10)%Q
        else ret ()) ;;
  ret self.

(** The output comes with the context of the call, which the engine
    keeps as the output's [grad_fn]. *)
Definition forward (self : gmap string value) (input : tensor)
    : M T (FunctionCtx * tensor) :=
  weight <- getattr self "weight" ;;
  bias <- getattr self "bias" ;;
  match weight, bias with
  | VTensor w, VTensor b => LinearFunction.apply input w (Some b)
  | VTensor w, VNone => LinearFunction.apply input w None
  | VTensor _, _ => raise (AttributeError "unsqueeze")
  | _, _ => raise (AttributeError "t")
  end.

Definition value_is_not_None (v : value) : bool :=
  match v with
  | VNone => false
  | _ => true
  end.

(** [str.format] of one attribute value. *)
Definition format (v : value) : string :=
  match v with
  | VInt n => pretty n
  | VBool true => "True"
  | VBool false => "False"
  | VNone => "None"
  | VTensor _ => "Parameter containing: tensor(...)"
  end.

Definition extra_repr (self : gmap string value) : M T string :=
  a <- getattr self "in_features" ;;
  b <- getattr self "out_features" ;;
  c <- getattr self "bias" ;;
  ret ("in_features=" +:+ format a +:+ ", out_features=" +:+ format b
       +:+ ", bias=" +:+ format (VBool (value_is_not_None c))).

End defs.
End Linear.

(** ** The contract, in the words of the design *)

Section contract.
Context {T : Type} `{!Scalar T}.

(** The sum of [f 0], ..., [f (n - 1)]. *)
Definition big_sum (n : nat) (f : nat → T) : T :=
  foldl (fun acc l => sadd acc (f l)) szero (seq 0 n).

(** What a matrix, a vector or a 0-dimensional handle denotes in a world. *)
Definition matrix (w : world T) (a : tensor) : nat → nat → T :=
  fun i j => torch.element w a [i; j].

Definition vector (w : world T) (a : tensor) : nat → T :=
  fun j => torch.element w a [j].

Definition scalar (w : world T) (a : tensor) : T := torch.element w a [].

Definition mat_mul (n : nat) (A B : nat → nat → T) : nat → nat → T :=
  fun i j => big_sum n (fun l => smul (A i l) (B l j)).

Definition transpose (A : nat → nat → T) : nat → nat → T := fun i j => A j i.

Definition column_sum (m : nat) (A : nat → nat → T) : nat → T :=
  fun j => big_sum m (fun i => A i j).

(** The elements of a tensor, in row-major order. *)
Definition values (w : world T) (a : tensor) : list T :=
  map (torch.element w a) (torch.indices (sizes a)).

(** An optional gradient as the caller sees it: absent, or a shape with
    its elements. *)
Definition denote (w : world T) (g : option tensor) : option (list nat * list T) :=
  (fun a => (sizes a, values w a)) <$> g.

Definition live (w : world T) (a : tensor) : Prop := storage a < length (heap w).

(** A handle of the given shape whose storage is allocated. *)
Definition shaped (w : world T) (a : tensor) (shape : list nat) : Prop :=
  sizes a = shape ∧ length (strides a) = length shape ∧ live w a.

Definition shaped_opt (w : world T) (a : option tensor) (shape : list nat) : Prop :=
  match a with
  | Some b => shaped w b shape
  | None => True
  end.

Definition live_opt (w : world T) (a : option tensor) : Prop :=
  match a with
  | Some b => live w b
  | None => True
  end.

(** The first world is a prefix of the second: storages were only added. *)
Definition preserved (w w' : world T) : Prop :=
  ∃ new, heap w' = heap w ++ new.

Definition is_matrix (w : world T) (a : tensor) (r c : nat) (A : nat → nat → T) : Prop :=
  sizes a = [r; c] ∧ ∀ i j, i < r → j < c → matrix w a i j = A i j.

(** What [backward] hands back for the bias: the column sums, in a
    tensor that has lost its only dimension when there is one column. *)
Definition is_bias_grad (w : world T) (a : tensor) (k : nat) (v : nat → T) : Prop :=
  sizes a = (if decide (k = 1) then [] else [k]) ∧
  (k ≠ 1 → ∀ j, j < k → vector w a j = v j) ∧
  (k = 1 → scalar w a = v 0).

(** A gradient is present exactly when it was requested, and then
    satisfies [P]. *)
Definition grad_ok (requested : bool) (g : option tensor) (P : tensor → Prop) : Prop :=
  match g with
  | Some a => requested = true ∧ P a
  | None => requested = false
  end.

(** Every gradient that was not requested is absent, and so is the bias
    gradient when no bias was retained. *)
Definition absent_unrequested (ctx : FunctionCtx)
    (r : option tensor * option tensor * option tensor) : Prop :=
  ((needs_input_grad ctx).1.1 = false → r.1.1 = None) ∧
  ((needs_input_grad ctx).1.2 = false → r.1.2 = None) ∧
  ((needs_input_grad ctx).2 = false → r.2 = None) ∧
  (∀ X W, saved_tensors ctx = Some (X, W, None) → r.2 = None).

Definition same_values (w w' : world T) (a : tensor) : Prop :=
  ∀ idx, torch.element w' a idx = torch.element w a idx.

Definition same_values_opt (w w' : world T) (a : option tensor) : Prop :=
  match a with
  | Some b => same_values w w' b
  | None => True
  end.

(** The first [n] storages, the generator and its position are the same
    in both worlds. *)
Definition unchanged_below (n : nat) (w w' : world T) : Prop :=
  (∀ l, l < n → heap w' !! l = heap w !! l) ∧ n ≤ length (heap w') ∧
  generator w' = generator w ∧ consumed w' = consumed w.

(** Whatever its outcome, [m] leaves the first [n] storages alone; a
    result it returns satisfies [Q]. *)
Definition keeps {A} (n : nat) (m : M T A) (Q : A → Prop) : Prop :=
  ∀ w, n ≤ length (heap w) →
    unchanged_below n w (m w).2 ∧ ∀ a, (m w).1 = Ok a → Q a.

(** [count] consecutive samples of [uniform_(from, to)], the first one
    from generator output number [start]. *)
Definition draws `{!Random T} (g : nat → N) (from to : Q) (start count : nat) : list T :=
  map (fun p => uniform_real (g (start + p)) from to) (seq 0 count).

(** The attributes [__init__] assigns. *)
Definition attributes (n k : nat) (weight : tensor) (bias : value) : gmap string value :=
  <["bias" := bias]> (<["weight" := VTensor weight]>
    (<["output_features" := VInt k]> (<["input_features" := VInt n]> ∅))).

End contract.

(** ** The scenario of the design: one sample, two features, one output *)

Module Scenario.

Definition X : tensor := mk_tensor 0 0 [1; 2] [2; 1] false.
Definition W : tensor := mk_tensor 1 0 [1; 2] [2; 1] true.
Definition b : tensor := mk_tensor 2 0 [1] [1] true.
Definition dY : tensor := mk_tensor 3 0 [1; 1] [1; 1] false.

Definition w0 : world Z :=
  mk_world [[1; 1]; [2; 3]; [1]; [1]]%Z (fun _ => 0%N) 0 (fun _ => 0%Z).

Definition ctx0 : FunctionCtx := mk_ctx None (true, true, true).

(** Contexts of a finished forward call, with all and with one of the
    gradients requested. *)
Definition ctx_all : FunctionCtx := mk_ctx (Some (X, W, Some b)) (true, true, true).
Definition ctx_weight : FunctionCtx := mk_ctx (Some (X, W, Some b)) (false, true, false).

(** A batch of two samples, still with one output feature. *)
Definition X2 : tensor := mk_tensor 0 0 [2; 2] [2; 1] false.
Definition dY2 : tensor := mk_tensor 1 0 [2; 1] [1; 1] false.
Definition W2 : tensor := mk_tensor 2 0 [1; 2] [2; 1] true.
Definition b2 : tensor := mk_tensor 3 0 [1] [1] true.
Definition w2 : world Z :=
  mk_world [[1; 1; 1; 1]; [4; 5]; [2; 3]; [1]]%Z (fun _ => 0%N) 0 (fun _ => 0%Z).
Definition ctx2 : FunctionCtx := mk_ctx (Some (X2, W2, Some b2)) (true, true, true).

(** An input with two columns, for a module configured with three, and
    an empty world, its scalars uninterpreted, to construct modules in. *)
Definition X_two_columns : tensor := mk_tensor 0 0 [1; 2] [2; 1] false.
Definition wq : world symbolic :=
  mk_world [] (fun p => N.of_nat (1000 * p)) 0 (fun _ => Const 0).

End Scenario.

(** ** Further notions for the properties of the calls *)

Section inner_product.
Context {T : Type} `{!Scalar T}.

(** The sum over all entries of the products of two matrices. *)
Definition inner (r c : nat) (A B : nat → nat → T) : T :=
  big_sum r (fun i => big_sum c (fun j => smul (A i j) (B i j))).

End inner_product.

Module Cases.

(** A 1-D tensor of two elements, and matrices without rows. *)
Definition pair : tensor := mk_tensor 0 0 [2] [1] false.
Definition no_rows : tensor := mk_tensor 0 0 [0; 2] [2; 1] false.
Definition no_rows_out : tensor := mk_tensor 0 0 [0; 1] [1; 1] false.

(** A square weight over the storage of the two-sample batch. *)
Definition W_square : tensor := mk_tensor 0 0 [2; 2] [2; 1] true.
Definition ctx_square : FunctionCtx :=
  mk_ctx (Some (Scenario.X2, W_square, Some Scenario.b2)) (true, true, true).

End Cases.

(** * Verification *)

Import torch.

(** ** Row-major layout *)

Section layout.

Lemma flat_rows_seq (N s a : nat) :
  flat_map (fun i => map (fun p => i * N + p) (seq 0 N)) (seq a s) = seq (a * N) (s * N).
Proof.
  revert a. induction s as [|s IH]; intros a; [done|].
  cbn [seq flat_map]. rewrite IH.
  replace (S s * N) with (N + s * N) by lia.
  rewrite seq_app. f_equal; [|f_equal; lia].
  change (map (λ p, a * N + p) (seq 0 N)) with (Nat.add (a * N) <$> seq 0 N).
  rewrite fmap_add_seq. f_equal; lia.
Qed.

Lemma map_flat_map {A B C} (g : B → C) (f : A → list B) (l : list A) :
  map g (flat_map f l) = flat_map (fun x => map g (f x)) l.
Proof. induction l as [|x l IH]; [done|]. cbn. by rewrite map_app, IH. Qed.

Lemma flat_map_ext_seq {B} (f g : nat → list B) (l : list nat) :
  (∀ i, f i = g i) → flat_map f l = flat_map g l.
Proof. intros E. induction l as [|x l IH]; [done|]. cbn. by rewrite E, IH. Qed.

Lemma offsets_contiguous (shape : list nat) :
  map (fun idx => sum_list (zip_with Nat.mul idx (contiguous_strides shape))) (indices shape)
  = seq 0 (numel shape).
Proof.
  induction shape as [|s rest IH]; [done|].
  cbn [indices contiguous_strides]. rewrite map_flat_map.
  rewrite (flat_map_ext_seq _ (fun i => map (fun p => i * numel rest + p) (seq 0 (numel rest)))).
  - rewrite flat_rows_seq. done.
  - intros i. rewrite <- IH. rewrite !map_map. done.
Qed.

Lemma length_indices (shape : list nat) : length (indices shape) = numel shape.
Proof.
  rewrite <- (length_map (fun idx => sum_list (zip_with Nat.mul idx (contiguous_strides shape)))).
  by rewrite offsets_contiguous, length_seq.
Qed.

Lemma indices_1d (k : nat) : indices [k] = map (fun j => [j]) (seq 0 k).
Proof.
  cbn. induction (seq 0 k) as [|x l IH]; [done|]. cbn. by rewrite IH.
Qed.

Lemma indices_2d (m k : nat) :
  indices [m; k] = flat_map (fun i => map (fun j => [i; j]) (seq 0 k)) (seq 0 m).
Proof.
  change (indices [m; k]) with (flat_map (fun i => map (cons i) (indices [k])) (seq 0 m)).
  apply flat_map_ext_seq. intros i. by rewrite indices_1d, map_map.
Qed.

Lemma row_major_lookup {B} (f : nat → nat → B) (m k i j : nat) :
  i < m → j < k →
  flat_map (fun i => map (f i) (seq 0 k)) (seq 0 m) !! (i * k + j) = Some (f i j).
Proof.
  intros Hi Hj.
  assert (G : ∀ a s, a ≤ i < a + s →
    flat_map (fun i => map (f i) (seq 0 k)) (seq a s) !! ((i - a) * k + j) = Some (f i j)).
  { intros a s. revert a. induction s as [|s IH]; intros a Ha; [lia|].
    cbn [seq flat_map]. destruct (decide (i = a)) as [->|Hne].
    - rewrite lookup_app_l by (rewrite length_map, length_seq; lia).
      replace ((a - a) * k + j) with j by lia.
      change (map (f a) (seq 0 k)) with (f a <$> seq 0 k).
      rewrite list_lookup_fmap, lookup_seq_lt by done. done.
    - rewrite lookup_app_r by (rewrite length_map, length_seq; nia).
      rewrite length_map, length_seq.
      replace ((i - a) * k + j - k) with ((i - S a) * k + j) by nia.
      apply IH. lia. }
  specialize (G 0 m). rewrite Nat.sub_0_r in G. apply G. lia.
Qed.

Lemma indices_2d_lookup (m k i j : nat) :
  i < m → j < k → indices [m; k] !! (i * k + j) = Some [i; j].
Proof. intros. rewrite indices_2d. by apply (row_major_lookup (fun i j => [i; j])). Qed.

End layout.

(** ** Writes and frames *)

Section writes.
Context {T : Type} `{!Scalar T}.

Lemma write_seq (f : list nat → nat) (idxs : list (list nat)) :
  ∀ (a : nat) (vals pre old : list T),
  map f idxs = seq a (length idxs) → length pre = a →
  length old = length idxs → length vals = length idxs →
  foldl (fun d iv => <[f iv.1 := iv.2]> d) (pre ++ old) (zip idxs vals) = pre ++ vals.
Proof.
  induction idxs as [|idx idxs IH]; intros a vals pre old Hf Hpre Hold Hvals.
  - destruct vals; [|done]. destruct old; done.
  - destruct vals as [|v vals]; [done|]. destruct old as [|o old]; [done|].
    cbn in Hf. injection Hf as Hidx Hf.
    cbn [zip zip_with foldl fst snd]. rewrite Hidx, <- Hpre.
    rewrite insert_app_r_alt, Nat.sub_diag by lia. cbn [insert list_insert].
    rewrite (cons_middle v pre old), (cons_middle v pre vals), !app_assoc.
    apply (IH (S a)); [done | rewrite length_app; cbn; lia | cbn in *; lia ..].
Qed.

Lemma write_all_contiguous (a : tensor) (vals d : list T) :
  storage_offset a = 0 → strides a = contiguous_strides (sizes a) →
  length vals = numel (sizes a) → length d = numel (sizes a) →
  write_all a vals d = vals.
Proof.
  intros Hoff Hst Hv Hd. unfold write_all.
  pose proof (write_seq (address a) (indices (sizes a)) 0 vals [] d) as G.
  cbn [app] in G. apply G; rewrite ?length_indices; try done.
  unfold address. rewrite Hoff, Hst. cbn [Nat.add]. apply offsets_contiguous.
Qed.

Lemma element_frame (w w' : world T) (a : tensor) (idx : list nat) :
  storage a < length (heap w) → preserved w w' →
  element w' a idx = element w a idx.
Proof.
  intros Ha [new Hnew]. unfold element. by rewrite Hnew, lookup_app_l.
Qed.

Lemma preserved_refl (w : world T) : preserved w w.
Proof. exists []. by rewrite app_nil_r. Qed.

Lemma preserved_trans (w1 w2 w3 : world T) :
  preserved w1 w2 → preserved w2 w3 → preserved w1 w3.
Proof. intros [n1 H1] [n2 H2]. exists (n1 ++ n2). by rewrite H2, H1, app_assoc. Qed.

Lemma element_fresh_2d (w : world T) (h : list (list T)) (D : list T) (new : list (list T))
    (m k i j : nat) (rg : bool) :
  heap w = h ++ D :: new →
  element w (mk_tensor (length h) 0 [m; k] (contiguous_strides [m; k]) rg) [i; j]
  = default szero (D !! (i * k + j)).
Proof.
  intros Hh. unfold element, address. cbn.
  rewrite Hh, list_lookup_middle by done. cbn.
  do 2 f_equal. lia.
Qed.

Lemma element_fresh_1d (w : world T) (h : list (list T)) (D : list T) (new : list (list T))
    (k j : nat) (rg : bool) :
  heap w = h ++ D :: new →
  element w (mk_tensor (length h) 0 [k] (contiguous_strides [k]) rg) [j]
  = default szero (D !! j).
Proof.
  intros Hh. unfold element, address. cbn.
  rewrite Hh, list_lookup_middle by done. cbn.
  do 2 f_equal. lia.
Qed.

Lemma store_last (a : tensor) (vals : list T) (w : world T) (h : list (list T)) (D : list T) :
  heap w = h ++ [D] → storage a = length h →
  store a vals w = set_heap (h ++ [write_all a vals D]) w.
Proof.
  intros Hh Hs. unfold store. rewrite Hh, Hs.
  rewrite <- (Nat.add_0_r (length h)), alter_app_r. done.
Qed.

Lemma big_sum_ext (n : nat) (f g : nat → T) :
  (∀ l, f l = g l) → big_sum n f = big_sum n g.
Proof.
  intros E. unfold big_sum. generalize (szero : T).
  induction (seq 0 n) as [|x l IH]; intros acc; [done|]. cbn. by rewrite E, IH.
Qed.

End writes.

(** ** The tensor operations *)

Section operations.
Context {T : Type} `{!Scalar T}.

Lemma length_flat_rows {B} (f : nat → nat → B) (k : nat) (l : list nat) :
  length (flat_map (fun i => map (f i) (seq 0 k)) l) = length l * k.
Proof.
  induction l as [|x l IH]; [done|].
  cbn. by rewrite length_app, length_map, length_seq, IH.
Qed.

Lemma length_mm_data (w : world T) (a b : tensor) (m n k : nat) :
  length (mm_data w a b m n k) = m * k.
Proof. unfold mm_data. by rewrite length_flat_rows, length_seq. Qed.

Lemma mm_data_lookup (w : world T) (a b : tensor) (m n k i j : nat) :
  i < m → j < k →
  mm_data w a b m n k !! (i * k + j) = Some (mat_mul n (matrix w a) (matrix w b) i j).
Proof.
  intros Hi Hj. unfold mm_data.
  by rewrite (row_major_lookup (fun i j => mm_entry w a b n i j)).
Qed.

Lemma mm_run (a b : tensor) (m n k : nat) (w : world T) :
  sizes a = [m; n] → sizes b = [n; k] →
  mm a b w =
    (Ok (mk_tensor (length (heap w)) 0 [m; k] (contiguous_strides [m; k])
           (requires_grad a || requires_grad b)),
     set_heap (heap w ++ [mm_data w a b m n k]) w).
Proof. intros Ha Hb. unfold mm. rewrite Ha, Hb, decide_True by done. done. Qed.

Lemma mm_mismatch (a b : tensor) (m n n' k : nat) (w : world T) :
  sizes a = [m; n] → sizes b = [n'; k] → n ≠ n' →
  mm a b w = (Raise (RuntimeError (size_mismatch [m; n] [n'; k])), w).
Proof. intros Ha Hb Hn. unfold mm. rewrite Ha, Hb, decide_False by done. done. Qed.

Lemma t_run (a : tensor) (r c : nat) (w : world T) :
  sizes a = [r; c] → length (strides a) = 2 →
  ∃ at', t a w = (Ok at', w) ∧ sizes at' = [c; r] ∧ length (strides at') = 2 ∧
         storage at' = storage a ∧
         ∀ w' i j, element w' at' [i; j] = element w' a [j; i].
Proof.
  intros Ha Hs. destruct (strides a) as [|s0 [|s1 [|]]] eqn:Est; try done.
  exists (with_view a [c; r] [s1; s0]). unfold t. rewrite Ha, Est.
  repeat split; try done.
  intros w' i j. unfold element, address. cbn. rewrite Est. cbn.
  do 3 f_equal. lia.
Qed.

Lemma expand_strides_same (szs : list nat) :
  ∀ sts, length szs = length sts → expand_strides szs sts szs = Some sts.
Proof.
  induction szs as [|s szs IH]; intros [|st sts] Hl; try done.
  cbn. rewrite decide_True by done. rewrite IH by (cbn in Hl; lia). done.
Qed.

Lemma expand_same (a : tensor) (shape : list nat) (w : world T) :
  sizes a = shape → length (strides a) = length shape →
  expand a shape w = (Ok (with_view a shape (strides a)), w).
Proof.
  intros Ha Hs. unfold expand. rewrite Ha.
  rewrite expand_strides_same by (by rewrite !length_reverse).
  by rewrite reverse_involutive.
Qed.

Lemma expand_row (u : tensor) (m k st sb : nat) (w : world T) :
  sizes u = [1; k] → strides u = [st; sb] →
  ∃ st', expand u [m; k] w = (Ok (with_view u [m; k] [st'; sb]), w) ∧
         ∀ i, i < m → i * st' = 0.
Proof.
  intros Hu Hs. unfold expand. rewrite Hu, Hs. cbn.
  rewrite decide_True by done.
  destruct (decide (1 = m)) as [<-|Hm].
  - exists st. split; [done|]. intros i Hi. by replace i with 0 by lia.
  - exists 0. rewrite decide_True by done. split; [done|]. intros; lia.
Qed.

Lemma iadd_fresh (self other : tensor) (h : list (list T)) (D : list T) (m k : nat)
    (rg : bool) (w : world T) :
  heap w = h ++ [D] → length D = m * k →
  self = mk_tensor (length h) 0 [m; k] (contiguous_strides [m; k]) rg →
  sizes other = [m; k] → length (strides other) = 2 →
  iadd self other w =
    (Ok self,
     set_heap (h ++ [map (fun idx => sadd (element w self idx) (element w other idx))
                         (indices [m; k])]) w).
Proof.
  intros Hh HD -> Ho Hs. unfold iadd, bind, expand_as.
  rewrite (expand_same other [m; k]) by done.
  cbn [sizes]. f_equal.
  rewrite (store_last _ _ w h D) by done.
  rewrite write_all_contiguous; try done.
  - cbn [sizes]. by rewrite length_map, length_indices.
  - cbn. lia.
Qed.

End operations.

(** ** The forward pass *)

Section steps.
Context {T : Type} `{!Scalar T}.

Lemma preserved_alloc (w : world T) (D : list T) :
  preserved w (set_heap (heap w ++ [D]) w).
Proof. by exists [D]. Qed.

Lemma matrix_frame (w w' : world T) (a : tensor) :
  storage a < length (heap w) → preserved w w' → ∀ i j, matrix w' a i j = matrix w a i j.
Proof. intros Ha Hp i j. by apply element_frame. Qed.

Lemma mat_mul_ext (n : nat) (A A' B B' : nat → nat → T) (i j : nat) :
  (∀ l, A i l = A' i l) → (∀ l, B l j = B' l j) →
  mat_mul n A B i j = mat_mul n A' B' i j.
Proof. intros HA HB. apply big_sum_ext. intros l. by rewrite HA, HB. Qed.

(** A matrix product allocates its result and leaves it readable in
    every later world. *)
Lemma mm_step (a b : tensor) (m n k : nat) (w : world T) :
  sizes a = [m; n] → sizes b = [n; k] →
  ∃ c w', mm a b w = (Ok c, w') ∧ preserved w w' ∧
          shaped w' c [m; k] ∧
          ∀ w'', preserved w' w'' → ∀ i j, i < m → j < k →
            matrix w'' c i j = mat_mul n (matrix w a) (matrix w b) i j.
Proof.
  intros Ha Hb. eexists _, _. split; [by apply mm_run|].
  split; [apply preserved_alloc|]. split.
  - split; [done|]. split; [done|]. unfold live. cbn. rewrite length_app. cbn. lia.
  - intros w'' [new Hnew] i j Hi Hj. unfold matrix.
    cbn [heap set_heap] in Hnew. rewrite <- app_assoc in Hnew. cbn [app] in Hnew.
    rewrite (element_fresh_2d w'' _ _ _ m k i j _ Hnew).
    by rewrite mm_data_lookup.
Qed.

Lemma forward_run (ctx : FunctionCtx) (X W : tensor) (b : option tensor)
    (m n k : nat) (w : world T) :
  shaped w X [m; n] → shaped w W [k; n] → shaped_opt w b [k] →
  ∃ Y w', LinearFunction.forward ctx X W b w
            = (Ok (LinearFunction.save_for_backward ctx X W b, Y), w') ∧
          preserved w w' ∧ shaped w' Y [m; k] ∧
          ∀ w'', preserved w' w'' → ∀ i j, i < m → j < k →
            matrix w'' Y i j =
              match b with
              | Some bt => sadd (mat_mul n (matrix w X) (transpose (matrix w W)) i j)
                                (vector w bt j)
              | None => mat_mul n (matrix w X) (transpose (matrix w W)) i j
              end.
Proof.
  intros (HX & HXs & HXl) (HW & HWs & HWl) Hb.
  unfold LinearFunction.forward, bind.
  destruct (t_run W k n w HW HWs) as (Wt & -> & HWt & HWts & HWtl & HWte).
  rewrite (mm_run X Wt m n k w HX HWt).
  set (D := mm_data w X Wt m n k).
  set (Y := mk_tensor (length (heap w)) 0 [m; k] (contiguous_strides [m; k]) _).
  set (w1 := set_heap (heap w ++ [D]) w).
  assert (HD : ∀ i j, i < m → j < k →
    D !! (i * k + j) = Some (mat_mul n (matrix w X) (transpose (matrix w W)) i j)).
  { intros i j Hi Hj. unfold D. rewrite mm_data_lookup by done. f_equal.
    apply mat_mul_ext; [done|]. intros l. apply HWte. }
  destruct b as [bt|].
  - destruct Hb as (Hbt & Hbs & Hbl).
    destruct (strides bt) as [|sb [|]] eqn:Ebs; try done.
    unfold unsqueeze0, ret, expand_as. rewrite Hbt, Ebs.
    set (u := with_view bt [1; k] [k * sb; sb]).
    destruct (expand_row u m k (k * sb) sb w1 eq_refl eq_refl) as (st' & He & Hst').
    cbn [sizes Y]. rewrite He.
    rewrite (iadd_fresh Y _ (heap w) D m k _ w1 eq_refl (length_mm_data _ _ _ _ _ _) eq_refl)
      by done.
    eexists _, _. split; [done|]. split; [by eexists|]. split.
    { split; [done|]. split; [done|]. unfold live. cbn. rewrite length_app. cbn. lia. }
    intros w'' [new Hnew] i j Hi Hj. unfold matrix. unfold Y in *. unfold w1 in Hnew.
    cbn [heap set_heap] in Hnew. rewrite <- app_assoc in Hnew. cbn [app] in Hnew.
    rewrite (element_fresh_2d w'' _ _ _ m k i j _ Hnew).
    rewrite list_lookup_fmap, indices_2d_lookup by done. cbn [fmap option_fmap option_map default from_option id].
    f_equal.
    + rewrite (element_fresh_2d w1 (heap w) D [] m k i j _) by done.
      by rewrite HD.
    + unfold vector. rewrite <- (element_frame w w1 bt [j] Hbl (preserved_alloc w D)).
      unfold element, address. cbn. rewrite Ebs. cbn. rewrite (Hst' i Hi). done.
  - unfold ret. eexists _, _. split; [done|]. split; [apply preserved_alloc|]. split.
    { split; [done|]. split; [done|]. unfold live. cbn. rewrite length_app. cbn. lia. }
    intros w'' [new Hnew] i j Hi Hj. unfold matrix. unfold Y in *. unfold w1 in Hnew.
    cbn [heap set_heap] in Hnew. rewrite <- app_assoc in Hnew. cbn [app] in Hnew.
    rewrite (element_fresh_2d w'' _ _ _ m k i j _ Hnew).
    by rewrite HD.
Qed.

End steps.

(** ** The backward pass *)

Section backward_steps.
Context {T : Type} `{!Scalar T}.

Lemma bind_ok {A B} (m : M T A) (k : A → M T B) (w w' : world T) (a : A) :
  m w = (Ok a, w') → bind m k w = k a w'.
Proof. intros E. unfold bind. by rewrite E. Qed.

Lemma bind_raise {A B} (m : M T A) (k : A → M T B) (w w' : world T) (e : exception) :
  m w = (Raise e, w') → bind m k w = (Raise e, w').
Proof. intros E. unfold bind. by rewrite E. Qed.

Lemma sum0_step (a : tensor) (m k : nat) (w : world T) :
  sizes a = [m; k] →
  sum0 a w =
    (Ok (mk_tensor (length (heap w)) 0 [k] (contiguous_strides [k]) (requires_grad a)),
     set_heap (heap w ++ [map (fun j => column_sum m (matrix w a) j) (seq 0 k)]) w).
Proof.
  intros Ha. unfold sum0. rewrite Ha. unfold new_tensor. do 4 f_equal.
  by rewrite indices_1d, map_map.
Qed.

Lemma grad_bias_step (dY : tensor) (m k : nat) (w : world T) :
  sizes dY = [m; k] →
  ∃ db w', (s <- sum0 dY ;; g <- squeeze0 s ;; ret (Some g)) w = (Ok (Some db), w') ∧
           preserved w w' ∧
           ∀ w'', preserved w' w'' → is_bias_grad w'' db k (column_sum m (matrix w dY)).
Proof.
  intros HdY. rewrite (bind_ok _ _ _ _ _ (sum0_step dY m k w HdY)).
  set (D := map _ (seq 0 k)).
  assert (HD : ∀ j, j < k → D !! j = Some (column_sum m (matrix w dY) j)).
  { intros j Hj. unfold D. by rewrite list_lookup_fmap, lookup_seq_lt. }
  destruct (decide (k = 1)) as [->|Hk].
  - eexists _, _. split; [done|]. split; [apply preserved_alloc|].
    intros w'' [new Hnew]. cbn [heap set_heap] in Hnew.
    rewrite <- app_assoc in Hnew. cbn [app] in Hnew.
    split; [done|]. split; [done|]. intros _.
    unfold scalar, element, address. cbn. rewrite Hnew, list_lookup_middle by done.
    done.
  - assert (E : squeeze0 (T:=T) (mk_tensor (length (heap w)) 0 [k] (contiguous_strides [k])
                    (requires_grad dY))
              = ret (mk_tensor (length (heap w)) 0 [k] (contiguous_strides [k])
                    (requires_grad dY))).
    { unfold squeeze0. cbn. destruct k as [|[|k]]; done. }
    unfold bind at 1. rewrite E. unfold bind, ret.
    eexists _, _. split; [done|]. split; [apply preserved_alloc|].
    intros w'' [new Hnew]. cbn [heap set_heap] in Hnew.
    rewrite <- app_assoc in Hnew. cbn [app] in Hnew.
    split; [by rewrite decide_False|]. split; [|done]. intros _ j Hj.
    unfold vector. rewrite (element_fresh_1d w'' _ _ _ k j _ Hnew).
    by rewrite HD.
Qed.

End backward_steps.

Section backward_run.
Context {T : Type} `{!Scalar T}.

Lemma is_matrix_ext (w : world T) (a : tensor) (r c : nat) (A A' : nat → nat → T) :
  (∀ i j, A i j = A' i j) → is_matrix w a r c A → is_matrix w a r c A'.
Proof. intros E [Hs Hv]. split; [done|]. intros i j Hi Hj. by rewrite Hv, E. Qed.

Lemma column_sum_ext (m : nat) (A A' : nat → nat → T) (j : nat) :
  (∀ i, A i j = A' i j) → column_sum m A j = column_sum m A' j.
Proof. intros E. by apply big_sum_ext. Qed.

Lemma is_bias_grad_ext (w : world T) (a : tensor) (k : nat) (v v' : nat → T) :
  (∀ j, v j = v' j) → is_bias_grad w a k v → is_bias_grad w a k v'.
Proof.
  intros E (Hs & Hv & H1). split; [done|]. split.
  - intros Hk j Hj. by rewrite Hv, E.
  - intros Hk. by rewrite H1, E.
Qed.

Lemma grad_ok_impl (r : bool) (g : option tensor) (P Q : tensor → Prop) :
  (∀ a, P a → Q a) → grad_ok r g P → grad_ok r g Q.
Proof. intros I. destruct g; cbn; [|done]. intros [? ?]. auto. Qed.

Lemma grad_input_step (r0 : bool) (dY W : tensor) (m n k : nat) (w : world T) :
  sizes dY = [m; k] → sizes W = [k; n] →
  ∃ gi w1, (if r0 then g <- mm dY W ;; ret (Some g) else ret None) w = (Ok gi, w1) ∧
           preserved w w1 ∧
           ∀ w'', preserved w1 w'' →
             grad_ok r0 gi (fun dX =>
               is_matrix w'' dX m n (mat_mul k (matrix w dY) (matrix w W))).
Proof.
  intros HdY HW. destruct r0.
  - destruct (mm_step dY W m k n w HdY HW) as (dX & w1 & E & Hp & (Hs & _) & Hv).
    exists (Some dX), w1. rewrite (bind_ok _ _ _ _ _ E).
    split; [done|]. split; [done|]. intros w'' Hp'. split; [done|].
    split; [done|]. by apply Hv.
  - exists None, w. split; [done|]. split; [apply preserved_refl|]. done.
Qed.

Lemma grad_weight_step (r1 : bool) (dY X : tensor) (m n k : nat) (w : world T) :
  sizes dY = [m; k] → length (strides dY) = 2 → sizes X = [m; n] →
  ∃ gw w1, (if r1 then gt <- t dY ;; g <- mm gt X ;; ret (Some g) else ret None) w
             = (Ok gw, w1) ∧
           preserved w w1 ∧
           ∀ w'', preserved w1 w'' →
             grad_ok r1 gw (fun dW =>
               is_matrix w'' dW k n (mat_mul m (transpose (matrix w dY)) (matrix w X))).
Proof.
  intros HdY HdYs HX. destruct r1.
  - destruct (t_run dY m k w HdY HdYs) as (gt & Et & Hgt & _ & _ & Hgte).
    destruct (mm_step gt X k m n w Hgt HX) as (dW & w1 & E & Hp & (Hs & _) & Hv).
    exists (Some dW), w1. rewrite (bind_ok _ _ _ _ _ Et), (bind_ok _ _ _ _ _ E).
    split; [done|]. split; [done|]. intros w'' Hp'. split; [done|].
    split; [done|]. intros i j Hi Hj. rewrite Hv by done.
    apply mat_mul_ext; [|done]. intros l. apply Hgte.
  - exists None, w. split; [done|]. split; [apply preserved_refl|]. done.
Qed.

Lemma grad_bias_cond_step (r : bool) (dY : tensor) (m k : nat) (w : world T) :
  sizes dY = [m; k] →
  ∃ gb w1, (if r then s <- sum0 dY ;; g <- squeeze0 s ;; ret (Some g) else ret None) w
             = (Ok gb, w1) ∧
           preserved w w1 ∧
           ∀ w'', preserved w1 w'' →
             grad_ok r gb (fun db => is_bias_grad w'' db k (column_sum m (matrix w dY))).
Proof.
  intros HdY. destruct r.
  - destruct (grad_bias_step dY m k w HdY) as (db & w1 & E & Hp & Hv).
    exists (Some db), w1. split; [done|]. split; [done|].
    intros w'' Hp'. split; [done|]. by apply Hv.
  - exists None, w. split; [done|]. split; [apply preserved_refl|]. done.
Qed.

Lemma backward_run (ctx : FunctionCtx) (X W : tensor) (b : option tensor) (dY : tensor)
    (m n k : nat) (w : world T) :
  saved_tensors ctx = Some (X, W, b) →
  shaped w X [m; n] → shaped w W [k; n] → shaped w dY [m; k] →
  ∃ gi gw gb w',
    LinearFunction.backward ctx dY w = (Ok (gi, gw, gb), w') ∧ preserved w w' ∧
    grad_ok (needs_input_grad ctx).1.1 gi (fun dX =>
      is_matrix w' dX m n (mat_mul k (matrix w dY) (matrix w W))) ∧
    grad_ok (needs_input_grad ctx).1.2 gw (fun dW =>
      is_matrix w' dW k n (mat_mul m (transpose (matrix w dY)) (matrix w X))) ∧
    grad_ok (is_not_None b && (needs_input_grad ctx).2) gb (fun db =>
      is_bias_grad w' db k (column_sum m (matrix w dY))).
Proof.
  intros Hsv (HX & HXs & HXl) (HW & HWs & HWl) (HdY & HdYs & HdYl).
  unfold LinearFunction.backward.
  assert (Eu : LinearFunction.unpack_saved (T:=T) ctx w = (Ok (X, W, b), w)).
  { unfold LinearFunction.unpack_saved. by rewrite Hsv. }
  rewrite (bind_ok _ _ _ _ _ Eu). cbn [fst snd].
  destruct (grad_input_step (needs_input_grad ctx).1.1 dY W m n k w HdY HW)
    as (gi & w1 & E1 & Hp1 & H1).
  rewrite (bind_ok _ _ _ _ _ E1).
  destruct (grad_weight_step (needs_input_grad ctx).1.2 dY X m n k w1 HdY HdYs HX)
    as (gw & w2 & E2 & Hp2 & H2).
  rewrite (bind_ok _ _ _ _ _ E2).
  destruct (grad_bias_cond_step (is_not_None b && (needs_input_grad ctx).2) dY m k w2 HdY)
    as (gb & w3 & E3 & Hp3 & H3).
  rewrite (bind_ok _ _ _ _ _ E3).
  exists gi, gw, gb, w3. split; [done|].
  assert (Hp12 : preserved w w2) by by eapply preserved_trans.
  split; [by eapply preserved_trans|]. split; [|split].
  - apply H1. by eapply preserved_trans.
  - eapply grad_ok_impl; [|by apply H2]. intros dW. apply is_matrix_ext. intros i j.
    apply mat_mul_ext; intros l; unfold transpose; by apply matrix_frame.
  - eapply grad_ok_impl; [|apply H3, preserved_refl]. intros db. apply is_bias_grad_ext.
    intros j. apply column_sum_ext. intros i. by apply matrix_frame.
Qed.

End backward_run.

(** ** What a call leaves alone *)

Section frame.
Context {T : Type} `{!Scalar T}.

Lemma unchanged_below_refl (n : nat) (w : world T) :
  n ≤ length (heap w) → unchanged_below n w w.
Proof. by intros Hn. Qed.

Lemma unchanged_below_trans (n : nat) (w1 w2 w3 : world T) :
  unchanged_below n w1 w2 → unchanged_below n w2 w3 → unchanged_below n w1 w3.
Proof.
  intros (H1 & L1 & G1 & C1) (H2 & L2 & G2 & C2).
  split; [|split; [done|split; congruence]].
  intros l Hl. by rewrite H2, H1.
Qed.

Lemma unchanged_below_alloc (n : nat) (w : world T) (D : list T) :
  n ≤ length (heap w) → unchanged_below n w (set_heap (heap w ++ [D]) w).
Proof.
  intros Hn. split; [|split; [|done]]; cbn.
  - intros l Hl. by rewrite lookup_app_l by lia.
  - rewrite length_app. lia.
Qed.

Lemma unchanged_below_store (n : nat) (w : world T) (a : tensor) (vals : list T) :
  n ≤ length (heap w) → n ≤ storage a → unchanged_below n w (store a vals w).
Proof.
  intros Hn Ha. split; [|split; [|done]]; cbn.
  - intros l Hl. by rewrite list_lookup_alter_ne by lia.
  - by rewrite length_alter.
Qed.

Lemma same_values_unchanged (n : nat) (w w' : world T) (a : tensor) :
  storage a < n → unchanged_below n w w' → same_values w w' a.
Proof. intros Ha (Hh & _) idx. unfold element. by rewrite Hh. Qed.

Lemma keeps_ret {A} (n : nat) (a : A) (Q : A → Prop) : Q a → keeps (T:=T) n (ret a) Q.
Proof. intros HQ w Hn. split; [by apply unchanged_below_refl|]. by intros ? [= <-]. Qed.

Lemma keeps_raise {A} (n : nat) (e : exception) (Q : A → Prop) : keeps (T:=T) n (raise e) Q.
Proof. intros w Hn. split; [by apply unchanged_below_refl|]. done. Qed.

Lemma keeps_bind {A B} (n : nat) (m : M T A) (k : A → M T B) (Q : A → Prop)
    (R : B → Prop) :
  keeps (T:=T) n m Q → (∀ a, Q a → keeps (T:=T) n (k a) R) → keeps (T:=T) n (bind m k) R.
Proof.
  intros Hm Hk w Hn. destruct (Hm w Hn) as [Hu HQ]. unfold bind.
  destruct (m w) as [[a|e] w1] eqn:E; cbn in *.
  - destruct (Hk a (HQ a eq_refl) w1) as [Hu' HR]; [by destruct Hu as (_ & ? & _)|].
    split; [by eapply unchanged_below_trans|done].
  - done.
Qed.

Lemma keeps_weaken {A} (n : nat) (m : M T A) (Q R : A → Prop) :
  keeps (T:=T) n m Q → (∀ a, Q a → R a) → keeps (T:=T) n m R.
Proof. intros Hm HQR w Hn. destruct (Hm w Hn) as [Hu HQ]. split; [done|]. auto. Qed.

Lemma keeps_t (n : nat) (a : tensor) : keeps (T:=T) n (t a) (fun c => storage c = storage a).
Proof.
  unfold t. destruct (sizes a) as [|? [|? [|]]], (strides a) as [|? [|? [|]]];
    try (by apply keeps_ret); by apply keeps_raise.
Qed.

Lemma keeps_mm (n : nat) (a b : tensor) : keeps (T:=T) n (mm a b) (fun c => n ≤ storage c).
Proof.
  intros w Hn. unfold mm.
  destruct (sizes a) as [|? [|? [|]]], (sizes b) as [|? [|? [|]]];
    try (split; [by apply unchanged_below_refl|done]).
  case_decide; [|split; [by apply unchanged_below_refl|done]].
  split; [by apply unchanged_below_alloc|]. by intros ? [= <-].
Qed.

Lemma keeps_unsqueeze0 (n : nat) (a : tensor) :
  keeps (T:=T) n (unsqueeze0 a) (fun c => storage c = storage a).
Proof. by apply keeps_ret. Qed.

Lemma keeps_expand (n : nat) (a : tensor) (target : list nat) :
  keeps (T:=T) n (expand a target) (fun c => storage c = storage a).
Proof.
  unfold expand. destruct (expand_strides _ _ _); [by apply keeps_ret|apply keeps_raise].
Qed.

Lemma keeps_iadd (n : nat) (self other : tensor) :
  n ≤ storage self → keeps (T:=T) n (iadd self other) (fun c => c = self).
Proof.
  intros Hs. unfold iadd. eapply keeps_bind; [apply keeps_expand|].
  intros o _ w Hn. split; [by apply unchanged_below_store|]. by intros ? [= <-].
Qed.

Lemma keeps_sum0 (n : nat) (a : tensor) : keeps (T:=T) n (sum0 a) (fun c => n ≤ storage c).
Proof.
  intros w Hn. unfold sum0. destruct (sizes a);
    (split; [by apply unchanged_below_alloc|by intros ? [= <-]]).
Qed.

Lemma keeps_squeeze0 (n : nat) (a : tensor) :
  keeps (T:=T) n (squeeze0 a) (fun c => storage c = storage a).
Proof.
  unfold squeeze0. destruct (sizes a) as [|[|[|?]] ?], (strides a); by apply keeps_ret.
Qed.

Lemma keeps_forward (n : nat) (ctx : FunctionCtx) (X W : tensor) (b : option tensor) :
  keeps (T:=T) n (LinearFunction.forward ctx X W b)
        (fun r => r.1 = LinearFunction.save_for_backward ctx X W b).
Proof.
  unfold LinearFunction.forward.
  eapply keeps_bind; [apply keeps_t|]. intros Wt _.
  eapply keeps_bind; [apply keeps_mm|]. intros Y HY.
  eapply keeps_bind with (Q := fun _ => True); [|intros; by apply keeps_ret].
  destruct b as [bt|]; [|by apply keeps_ret].
  eapply keeps_bind; [apply keeps_unsqueeze0|]. intros u _.
  eapply keeps_bind; [apply keeps_expand|]. intros e _.
  eapply keeps_weaken; [by apply keeps_iadd|done].
Qed.

Lemma keeps_backward (n : nat) (ctx : FunctionCtx) (dY : tensor) :
  keeps (T:=T) n (LinearFunction.backward ctx dY) (absent_unrequested ctx).
Proof.
  unfold LinearFunction.backward.
  eapply keeps_bind with (Q := fun s => saved_tensors ctx = Some s).
  { unfold LinearFunction.unpack_saved. destruct (saved_tensors ctx);
      [by apply keeps_ret|apply keeps_raise]. }
  intros s Hs.
  eapply keeps_bind with (Q := fun g => (needs_input_grad ctx).1.1 = false → g = None).
  { destruct (needs_input_grad ctx).1.1; [|by apply keeps_ret].
    eapply keeps_bind; [apply keeps_mm|]. intros; by apply keeps_ret. }
  intros gi Hgi.
  eapply keeps_bind with (Q := fun g => (needs_input_grad ctx).1.2 = false → g = None).
  { destruct (needs_input_grad ctx).1.2; [|by apply keeps_ret].
    eapply keeps_bind; [apply keeps_t|]. intros gt _.
    eapply keeps_bind; [apply keeps_mm|]. intros; by apply keeps_ret. }
  intros gw Hgw.
  eapply keeps_bind
    with (Q := fun g => ((needs_input_grad ctx).2 = false → g = None) ∧
                        (s.2 = None → g = None)).
  - destruct s as [[X W] [bt|]], (needs_input_grad ctx).2; cbn [snd is_not_None andb];
      try (by apply keeps_ret).
    eapply keeps_bind; [apply keeps_sum0|]. intros s0 _.
    eapply keeps_bind; [apply keeps_squeeze0|]. intros; by apply keeps_ret.
  - intros gb [Hgb Hnone]. apply keeps_ret. repeat split; try done.
    intros X W Hsv. apply Hnone. rewrite Hs in Hsv. by injection Hsv as ->.
Qed.

End frame.

(** ** Construction *)

Section init.
Context {T : Type} `{!Scalar T} `{!Random T}.

Lemma store_at (a : tensor) (vals : list T) (w : world T) (h : list (list T)) (D : list T)
    (rest : list (list T)) :
  heap w = h ++ D :: rest → storage a = length h →
  store a vals w = set_heap (h ++ write_all a vals D :: rest) w.
Proof.
  intros Hh Hs. unfold store. rewrite Hh, Hs.
  rewrite <- (Nat.add_0_r (length h)), alter_app_r. done.
Qed.

Lemma uniform_run (a : tensor) (from to : Q) (w : world T) (h : list (list T))
    (D : list T) (rest : list (list T)) :
  heap w = h ++ D :: rest → storage a = length h → storage_offset a = 0 →
  strides a = contiguous_strides (sizes a) → length D = numel (sizes a) →
  uniform_ a from to w =
    (Ok (), mk_world (h ++ draws (generator w) from to (consumed w) (numel (sizes a)) :: rest)
              (generator w) (consumed w + numel (sizes a)) (junk w)).
Proof.
  intros Hh Hs Ho Hst HD. unfold uniform_. rewrite length_indices.
  rewrite (store_at a _ w h D rest Hh Hs).
  rewrite write_all_contiguous; try done.
  by rewrite length_map, length_seq.
Qed.

Lemma getattr_ok (self : gmap string value) (name : string) (v : value) (w : world T) :
  self !! name = Some v → Linear.getattr self name w = (Ok v, w).
Proof. intros E. unfold Linear.getattr. by rewrite E. Qed.

Lemma getattr_missing (self : gmap string value) (name : string) (w : world T) :
  self !! name = None → Linear.getattr self name w = (Raise (AttributeError name), w).
Proof. intros E. unfold Linear.getattr. by rewrite E. Qed.

Lemma attributes_weight (n k : nat) (weight : tensor) (bias : value) :
  attributes n k weight bias !! "weight" = Some (VTensor weight).
Proof. unfold attributes. rewrite lookup_insert_ne by done. apply lookup_insert_eq. Qed.

Lemma attributes_bias (n k : nat) (weight : tensor) (bias : value) :
  attributes n k weight bias !! "bias" = Some bias.
Proof. apply lookup_insert_eq. Qed.

Lemma attributes_weight_only (n k : nat) (weight : tensor) :
  (<["weight" := VTensor weight]>
    (<["output_features" := VInt k]> (<["input_features" := VInt n]> ∅))
    : gmap string value) !! "weight" = Some (VTensor weight).
Proof. apply lookup_insert_eq. Qed.

Lemma init_with_bias (n k : nat) (w : world T) :
  Linear.__init__ n k (Some true) w =
    (Ok (attributes n k
           (mk_tensor (length (heap w)) 0 [k; n] (contiguous_strides [k; n]) true)
           (VTensor (mk_tensor (S (length (heap w))) 0 [k] (contiguous_strides [k]) true))),
     mk_world (heap w ++ [draws (generator w) (- (1 # 10)) (1 # 10) (consumed w) (numel [k; n]);
                          draws (generator w) (- (1 # 10)) (1 # 10) (consumed w + numel [k; n]) (numel [k])])
              (generator w) (consumed w + numel [k; n] + numel [k]) (junk w)).
Proof.
  unfold Linear.__init__.
  erewrite bind_ok by reflexivity.
  cbn [Linear.truthy default from_option id].
  erewrite bind_ok by (erewrite bind_ok by reflexivity; reflexivity).
  cbn [heap set_heap generator consumed junk nn_Parameter storage storage_offset
       sizes strides].
  rewrite length_app, Nat.add_1_r. cbn [length].
  erewrite bind_ok
    by (apply getattr_ok; rewrite lookup_insert_ne by done; apply lookup_insert_eq).
  erewrite bind_ok by reflexivity.
  erewrite bind_ok.
  2:{ apply (uniform_run _ _ _ _ (heap w) (map (junk w) (seq 0 (numel [k; n])))
               [map (junk w) (seq 0 (numel [k]))]);
        cbn [heap storage storage_offset strides sizes data]; try done.
      - by rewrite <- app_assoc.
      - by rewrite length_map, length_seq. }
  cbn [is_not_None heap set_heap generator consumed junk sizes nn_Parameter].
  erewrite bind_ok.
  2:{ erewrite bind_ok by (apply getattr_ok; apply lookup_insert_eq).
      erewrite bind_ok by reflexivity.
      apply (uniform_run _ _ _ _ (heap w ++ [draws (generator w) (- (1 # 10)) (1 # 10) (consumed w) (numel [k; n])])
               (map (junk w) (seq 0 (numel [k]))) []);
        cbn [heap storage storage_offset strides sizes data generator consumed junk];
        try done.
      - apply (app_assoc _ [_] [_]).
      - rewrite length_app. cbn. lia.
      - by rewrite length_map, length_seq. }
  unfold ret. cbn [heap generator consumed junk sizes data].
  rewrite <- app_assoc. done.
Qed.

Lemma init_without_bias (n k : nat) (w : world T) :
  Linear.__init__ n k None w =
    (Ok (attributes n k
           (mk_tensor (length (heap w)) 0 [k; n] (contiguous_strides [k; n]) true) VNone),
     mk_world (heap w ++ [draws (generator w) (- (1 # 10)) (1 # 10) (consumed w) (numel [k; n])])
              (generator w) (consumed w + numel [k; n]) (junk w)).
Proof.
  unfold Linear.__init__.
  erewrite bind_ok by reflexivity.
  cbn [Linear.truthy default from_option id].
  erewrite bind_ok by reflexivity.
  cbn [heap set_heap generator consumed junk nn_Parameter storage storage_offset
       sizes strides].
  erewrite bind_ok
    by (apply getattr_ok; rewrite lookup_insert_ne by done; apply lookup_insert_eq).
  erewrite bind_ok by reflexivity.
  erewrite bind_ok.
  2:{ apply (uniform_run _ _ _ _ (heap w) (map (junk w) (seq 0 (numel [k; n]))) []);
        cbn [heap storage storage_offset strides sizes data]; try done.
      by rewrite length_map, length_seq. }
  cbn [is_not_None heap set_heap generator consumed junk sizes nn_Parameter].
  erewrite bind_ok by reflexivity. done.
Qed.

Lemma init_bias_False (n k : nat) (w : world T) :
  Linear.__init__ n k (Some false) w =
    (Raise (AttributeError "data"),
     mk_world (heap w ++ [draws (generator w) (- (1 # 10)) (1 # 10) (consumed w) (numel [k; n])])
              (generator w) (consumed w + numel [k; n]) (junk w)).
Proof.
  unfold Linear.__init__.
  erewrite bind_ok by reflexivity.
  cbn [Linear.truthy default from_option id].
  erewrite bind_ok by reflexivity.
  cbn [heap set_heap generator consumed junk nn_Parameter storage storage_offset
       sizes strides].
  erewrite bind_ok
    by (apply getattr_ok; rewrite lookup_insert_ne by done; apply lookup_insert_eq).
  erewrite bind_ok by reflexivity.
  erewrite bind_ok.
  2:{ apply (uniform_run _ _ _ _ (heap w) (map (junk w) (seq 0 (numel [k; n]))) []);
        cbn [heap storage storage_offset strides sizes data]; try done.
      by rewrite length_map, length_seq. }
  cbn [is_not_None heap set_heap generator consumed junk sizes nn_Parameter].
  erewrite bind_raise; [done|].
  erewrite bind_ok by (apply getattr_ok; apply lookup_insert_eq).
  erewrite bind_raise; done.
Qed.

(** A constructed module has exactly the four attributes that
    [__init__] assigns. *)
Lemma init_inv (n k : nat) (flag : option bool) (w w' : world T)
    (self : gmap string value) :
  Linear.__init__ n k flag w = (Ok self, w') →
  ∃ weight bias, self = attributes n k weight bias ∧
                 sizes weight = [k; n] ∧ length (strides weight) = 2 ∧
                 (bias = VNone ∨ ∃ b, bias = VTensor b).
Proof.
  destruct flag as [[|]|].
  - rewrite init_with_bias. intros [= <- <-]. eexists _, _. split; [done|].
    split; [done|]. split; [done|]. right. by eexists.
  - by rewrite init_bias_False.
  - rewrite init_without_bias. intros [= <- <-]. eexists _, _. split; [done|].
    split; [done|]. split; [done|]. by left.
Qed.

End init.

(** ** Values of the gradients *)

Section gradient_values.
Context {T : Type} `{!Scalar T}.

Lemma flat_rows_ext (f g : nat → nat → T) (r c : nat) :
  (∀ i j, i < r → j < c → f i j = g i j) →
  flat_map (fun i => map (f i) (seq 0 c)) (seq 0 r)
  = flat_map (fun i => map (g i) (seq 0 c)) (seq 0 r).
Proof.
  intros E.
  assert (G : ∀ a s, a + s ≤ r →
    flat_map (fun i => map (f i) (seq 0 c)) (seq a s)
    = flat_map (fun i => map (g i) (seq 0 c)) (seq a s)).
  { intros a s. revert a. induction s as [|s IH]; intros a Ha; [done|].
    cbn [seq flat_map]. rewrite IH by lia. f_equal.
    apply map_ext_in. intros j Hj. apply in_seq in Hj. apply E; lia. }
  by apply G.
Qed.

Lemma is_matrix_values (w : world T) (a : tensor) (r c : nat) (A : nat → nat → T) :
  is_matrix w a r c A →
  values w a = flat_map (fun i => map (A i) (seq 0 c)) (seq 0 r).
Proof.
  intros [Hs Hv]. unfold values. rewrite Hs, indices_2d, map_flat_map.
  rewrite <- (flat_rows_ext (fun i j => matrix w a i j) A r c) by done.
  apply flat_map_ext_seq. intros i. by rewrite map_map.
Qed.

Lemma is_bias_grad_values (w : world T) (a : tensor) (k : nat) (v : nat → T) :
  is_bias_grad w a k v → values w a = map v (seq 0 k).
Proof.
  intros (Hs & Hv & H1). unfold values. rewrite Hs.
  destruct (decide (k = 1)) as [->|Hk].
  - cbn. by rewrite <- H1.
  - rewrite indices_1d, map_map. apply map_ext_in. intros j Hj. apply in_seq in Hj.
    apply Hv; [done|lia].
Qed.

Lemma grad_ok_present (r : bool) (g : option tensor) (P : tensor → Prop) :
  grad_ok r g P → r = true → ∃ a, g = Some a ∧ P a.
Proof. destruct g; cbn; [|congruence]. intros [_ HP] _. by eexists. Qed.

Lemma grad_ok_denote (w1 w2 : world T) (r1 r2 : bool) (g1 g2 : option tensor)
    (P1 P2 : tensor → Prop) :
  (∀ a1 a2, P1 a1 → P2 a2 → sizes a1 = sizes a2 ∧ values w1 a1 = values w2 a2) →
  grad_ok r1 g1 P1 → grad_ok r2 g2 P2 → r1 = r2 →
  denote w1 g1 = denote w2 g2.
Proof.
  intros HP H1 H2 Hr. destruct g1 as [a1|], g2 as [a2|]; cbn in *.
  - destruct H1 as [_ H1], H2 as [_ H2]. destruct (HP a1 a2 H1 H2) as [-> ->]. done.
  - destruct H1 as [-> _]. congruence.
  - destruct H2 as [-> _]. congruence.
  - done.
Qed.

End gradient_values.

(** * The claims *)

Section function_claims.
Context {T : Type} `{!Scalar T}.

(** C1: for every input X of shape (m, n), weight W of shape (k, n) and
    bias b of shape (k) or absent, [forward] returns a tensor Y of shape
    (m, k) with Y = X · Wᵗ, plus b added to every row when b is present. *)
Theorem forward_affine (ctx : FunctionCtx) (X W : tensor) (b : option tensor)
    (m n k : nat) (w : world T) :
  shaped w X [m; n] → shaped w W [k; n] → shaped_opt w b [k] →
  ∃ ctx' Y w',
    LinearFunction.forward ctx X W b w = (Ok (ctx', Y), w') ∧
    sizes Y = [m; k] ∧
    ∀ i j, i < m → j < k →
      matrix w' Y i j =
        match b with
        | Some bt => sadd (mat_mul n (matrix w X) (transpose (matrix w W)) i j)
                          (vector w bt j)
        | None => mat_mul n (matrix w X) (transpose (matrix w W)) i j
        end.
Proof.
  intros HX HW Hb.
  destruct (forward_run ctx X W b m n k w HX HW Hb) as (Y & w' & E & _ & (HY & _) & Hv).
  exists (LinearFunction.save_for_backward ctx X W b), Y, w'.
  split; [done|]. split; [done|]. intros i j Hi Hj. apply Hv; [apply preserved_refl|done..].
Qed.

(** C2: for retained X (m×n), W (k×n) and an upstream gradient dY (m×k),
    [backward] with the input and weight gradients requested returns
    dX = dY · W of shape (m, n) and dW = dYᵗ · X of shape (k, n). *)
Theorem backward_input_weight (ctx : FunctionCtx) (X W : tensor) (b : option tensor)
    (dY : tensor) (m n k : nat) (w : world T) :
  saved_tensors ctx = Some (X, W, b) →
  (needs_input_grad ctx).1.1 = true → (needs_input_grad ctx).1.2 = true →
  shaped w X [m; n] → shaped w W [k; n] → shaped w dY [m; k] →
  ∃ dX dW gb w',
    LinearFunction.backward ctx dY w = (Ok (Some dX, Some dW, gb), w') ∧
    sizes dX = [m; n] ∧ sizes dW = [k; n] ∧
    (∀ i l, i < m → l < n →
       matrix w' dX i l = mat_mul k (matrix w dY) (matrix w W) i l) ∧
    (∀ j l, j < k → l < n →
       matrix w' dW j l = mat_mul m (transpose (matrix w dY)) (matrix w X) j l).
Proof.
  intros Hsv H0 H1 HX HW HdY.
  destruct (backward_run ctx X W b dY m n k w Hsv HX HW HdY)
    as (gi & gw & gb & w' & E & _ & Gi & Gw & _).
  destruct (grad_ok_present _ _ _ Gi H0) as (dX & -> & HdXs & HdXv).
  destruct (grad_ok_present _ _ _ Gw H1) as (dW & -> & HdWs & HdWv).
  by exists dX, dW, gb, w'.
Qed.

(** C7: in every backward call, a gradient that was not requested is
    absent ([None]), and a requested gradient is the same, in shape and
    in elements, whichever of the others were skipped. *)
Theorem backward_skips_unrequested (ctx ctx' : FunctionCtx) (X W : tensor)
    (b : option tensor) (dY : tensor) (m n k : nat) (w : world T) :
  saved_tensors ctx = Some (X, W, b) → saved_tensors ctx' = Some (X, W, b) →
  shaped w X [m; n] → shaped w W [k; n] → shaped w dY [m; k] →
  ∃ r w1 r' w1',
    LinearFunction.backward ctx dY w = (Ok r, w1) ∧
    LinearFunction.backward ctx' dY w = (Ok r', w1') ∧
    absent_unrequested ctx r ∧ absent_unrequested ctx' r' ∧
    ((needs_input_grad ctx).1.1 = (needs_input_grad ctx').1.1 →
       denote w1 r.1.1 = denote w1' r'.1.1) ∧
    ((needs_input_grad ctx).1.2 = (needs_input_grad ctx').1.2 →
       denote w1 r.1.2 = denote w1' r'.1.2) ∧
    ((needs_input_grad ctx).2 = (needs_input_grad ctx').2 →
       denote w1 r.2 = denote w1' r'.2).
Proof.
  intros Hsv Hsv' HX HW HdY.
  destruct (backward_run ctx X W b dY m n k w Hsv HX HW HdY)
    as (gi & gw & gb & w1 & E & _ & Gi & Gw & Gb).
  destruct (backward_run ctx' X W b dY m n k w Hsv' HX HW HdY)
    as (gi' & gw' & gb' & w1' & E' & _ & Gi' & Gw' & Gb').
  exists (gi, gw, gb), w1, (gi', gw', gb'), w1'.
  split; [done|]. split; [done|].
  pose proof (keeps_backward 0 ctx dY w ltac:(lia)) as [_ Ha].
  pose proof (keeps_backward 0 ctx' dY w ltac:(lia)) as [_ Ha'].
  rewrite E in Ha. rewrite E' in Ha'.
  split; [by apply Ha|]. split; [by apply Ha'|]. cbn [fst snd].
  split; [|split].
  - intros Hr. eapply (grad_ok_denote w1 w1'); [|exact Gi|exact Gi'|exact Hr].
    intros a1 a2 H1 H2. split; [destruct H1, H2; congruence|].
    by rewrite (is_matrix_values _ _ _ _ _ H1), (is_matrix_values _ _ _ _ _ H2).
  - intros Hr. eapply (grad_ok_denote w1 w1'); [|exact Gw|exact Gw'|exact Hr].
    intros a1 a2 H1 H2. split; [destruct H1, H2; congruence|].
    by rewrite (is_matrix_values _ _ _ _ _ H1), (is_matrix_values _ _ _ _ _ H2).
  - intros Hr. eapply (grad_ok_denote w1 w1'); [|exact Gb|exact Gb'|by rewrite Hr].
    intros a1 a2 H1 H2. split; [destruct H1, H2; congruence|].
    by rewrite (is_bias_grad_values _ _ _ _ H1), (is_bias_grad_values _ _ _ _ H2).
Qed.

(** C9: a forward call leaves the values of X, W and b, the generator
    and everything else allocated before it unchanged; what it adds is the
    context retaining exactly the handles X, W and b.  A backward call
    leaves X, W and b unchanged as well. *)
Theorem forward_backward_frame (X W : tensor) (b : option tensor) (w : world T) :
  live w X → live w W → live_opt w b →
  (∀ ctx,
     let r := LinearFunction.forward ctx X W b w in
     same_values w r.2 X ∧ same_values w r.2 W ∧ same_values_opt w r.2 b ∧
     unchanged_below (length (heap w)) w r.2 ∧
     ∀ ctx' Y, r.1 = Ok (ctx', Y) →
       saved_tensors ctx' = Some (X, W, b) ∧
       needs_input_grad ctx' = needs_input_grad ctx) ∧
  (∀ ctx dY,
     saved_tensors ctx = Some (X, W, b) →
     let r := LinearFunction.backward ctx dY w in
     same_values w r.2 X ∧ same_values w r.2 W ∧ same_values_opt w r.2 b ∧
     unchanged_below (length (heap w)) w r.2).
Proof.
  intros HX HW Hb. split.
  - intros ctx r.
    destruct (keeps_forward (length (heap w)) ctx X W b w ltac:(done)) as [Hu Hr].
    fold r in Hu, Hr.
    split; [by eapply same_values_unchanged|].
    split; [by eapply same_values_unchanged|].
    split; [destruct b; [by eapply same_values_unchanged|done]|].
    split; [done|]. intros ctx' Y E. specialize (Hr _ E). cbn in Hr. by subst ctx'.
  - intros ctx dY _ r.
    destruct (keeps_backward (length (heap w)) ctx dY w ltac:(done)) as [Hu _].
    fold r in Hu.
    split; [by eapply same_values_unchanged|].
    split; [by eapply same_values_unchanged|].
    split; [destruct b; [by eapply same_values_unchanged|done]|done].
Qed.

(** X14.  The bias gradient in general: the column sums of dY, in a tensor of
    shape (k) unless k = 1, when [squeeze(0)] leaves no dimension. *)
Lemma backward_bias_gradient (ctx : FunctionCtx) (X W bt dY : tensor)
    (m n k : nat) (w : world T) :
  saved_tensors ctx = Some (X, W, Some bt) → (needs_input_grad ctx).2 = true →
  shaped w X [m; n] → shaped w W [k; n] → shaped w dY [m; k] →
  ∃ gi gw db w',
    LinearFunction.backward ctx dY w = (Ok (gi, gw, Some db), w') ∧
    sizes db = (if decide (k = 1) then [] else [k]) ∧
    values w' db = map (column_sum m (matrix w dY)) (seq 0 k).
Proof.
  intros Hsv H2 HX HW HdY.
  destruct (backward_run ctx X W (Some bt) dY m n k w Hsv HX HW HdY)
    as (gi & gw & gb & w' & E & _ & _ & _ & Gb).
  rewrite H2 in Gb. destruct (grad_ok_present _ _ _ Gb eq_refl) as (db & -> & Hdb).
  exists gi, gw, db, w'. split; [done|]. split; [by destruct Hdb|].
  by apply is_bias_grad_values.
Qed.

(** X15.  A backward call that returns reports every unrequested gradient as
    absent, whatever the shapes it was given. *)
Lemma backward_absent_always (ctx : FunctionCtx) (dY : tensor) (w : world T)
    (r : option tensor * option tensor * option tensor) :
  (LinearFunction.backward ctx dY w).1 = Ok r → absent_unrequested ctx r.
Proof.
  intros E. destruct (keeps_backward 0 ctx dY w ltac:(lia)) as [_ Ha]. by apply Ha.
Qed.

End function_claims.

Section module_claims.
Context {T : Type} `{!Scalar T} `{!Random T}.

Lemma forward_mismatch (ctx : FunctionCtx) (X W : tensor) (b : option tensor)
    (m n n' k : nat) (w : world T) :
  sizes X = [m; n'] → sizes W = [k; n] → length (strides W) = 2 → n' ≠ n →
  LinearFunction.forward ctx X W b w
  = (Raise (RuntimeError (size_mismatch [m; n'] [n; k])), w).
Proof.
  intros HX HW HWs Hn. unfold LinearFunction.forward.
  destruct (t_run W k n w HW HWs) as (Wt & Et & HWt & _).
  rewrite (bind_ok _ _ _ _ _ Et).
  by rewrite (bind_raise _ _ _ _ _ (mm_mismatch X Wt m n' n k w HX HWt Hn)).
Qed.

(** C4: constructing the module with [bias=False] does not succeed: the
    weight is initialised, then [self.bias.data] is read although
    [self.bias] is [None], and the constructor raises. *)
Theorem init_bias_False_raises (n k : nat) (w : world T) :
  (Linear.__init__ n k (Some false) w).1 = Raise (AttributeError "data").
Proof. by rewrite init_bias_False. Qed.

(** C6: the forward call of a constructed module on an input whose
    number of columns is not [input_features] raises the library's
    size-mismatch error; no result is returned and nothing is allocated. *)
Theorem forward_rejects_wrong_columns (n k : nat) (flag : option bool)
    (w w1 : world T) (self : gmap string value) (X : tensor) (m n' : nat)
    (w2 : world T) :
  Linear.__init__ n k flag w = (Ok self, w1) →
  sizes X = [m; n'] → n' ≠ n →
  Linear.forward self X w2 = (Raise (RuntimeError (size_mismatch [m; n'] [n; k])), w2).
Proof.
  intros Hinit HX Hn.
  destruct (init_inv n k flag w w1 self Hinit) as (weight & bias & -> & HW & HWs & Hb).
  unfold Linear.forward.
  rewrite (bind_ok _ _ _ _ _ (getattr_ok _ "weight" _ _ (attributes_weight n k _ _))).
  rewrite (bind_ok _ _ _ _ _ (getattr_ok _ "bias" _ _ (attributes_bias n k _ _))).
  destruct Hb as [->|[b ->]]; unfold LinearFunction.apply;
    by apply forward_mismatch.
Qed.

(** C10: for every constructed module, [extra_repr] raises: it reads
    [in_features], an attribute the constructor never assigns (it assigns
    [input_features] and [output_features]). *)
Theorem extra_repr_raises (n k : nat) (flag : option bool) (w w1 : world T)
    (self : gmap string value) (w2 : world T) :
  Linear.__init__ n k flag w = (Ok self, w1) →
  self !! "in_features" = None ∧ self !! "out_features" = None ∧
  self !! "input_features" = Some (VInt n) ∧ self !! "output_features" = Some (VInt k) ∧
  Linear.extra_repr self w2 = (Raise (AttributeError "in_features"), w2).
Proof.
  intros Hinit.
  destruct (init_inv n k flag w w1 self Hinit) as (weight & bias & -> & _).
  assert (Hin : attributes n k weight bias !! "in_features" = None).
  { unfold attributes. by rewrite !lookup_insert_ne, lookup_empty by done. }
  split; [done|]. split.
  { unfold attributes. by rewrite !lookup_insert_ne, lookup_empty by done. }
  split.
  { unfold attributes. rewrite !lookup_insert_ne by done. apply lookup_insert_eq. }
  split.
  { unfold attributes. rewrite !lookup_insert_ne by done. apply lookup_insert_eq. }
  unfold Linear.extra_repr.
  by rewrite (bind_raise _ _ _ _ _ (getattr_missing _ "in_features" _ Hin)).
Qed.

(** X16.  The remainder of C4, on the one way the constructor does yield a
    module without bias (passing [None]): in every world in which the
    module's storage is still allocated, forward on an input of shape
    (m, n) is exactly X · Wᵗ, with the values X and W have at the call,
    and no backward call of its context produces a bias gradient. *)
Lemma module_without_bias (n k : nat) (w : world T) :
  ∃ W w1,
    Linear.__init__ n k None w = (Ok (attributes n k W VNone), w1) ∧
    ∀ (w2 : world T) (X : tensor) (m : nat),
      length (heap w1) ≤ length (heap w2) → shaped w2 X [m; n] →
      ∃ ctx Y w3,
        Linear.forward (attributes n k W VNone) X w2 = (Ok (ctx, Y), w3) ∧
        sizes Y = [m; k] ∧
        (∀ i j, i < m → j < k →
           matrix w3 Y i j = mat_mul n (matrix w2 X) (transpose (matrix w2 W)) i j) ∧
        ∀ dY w4 r, (LinearFunction.backward ctx dY w4).1 = Ok r → r.2 = None.
Proof.
  eexists _, _. split; [apply init_without_bias|]. intros w2 X m Hlen HX.
  set (W := mk_tensor (length (heap w)) 0 [k; n] (contiguous_strides [k; n]) true).
  assert (HW : shaped w2 W [k; n]).
  { split; [done|]. split; [done|]. unfold live. cbn in Hlen |- *.
    rewrite length_app in Hlen. cbn in Hlen. lia. }
  unfold Linear.forward.
  rewrite (bind_ok _ _ _ _ _ (getattr_ok _ "weight" _ _ (attributes_weight n k _ _))).
  rewrite (bind_ok _ _ _ _ _ (getattr_ok _ "bias" _ _ (attributes_bias n k _ _))).
  unfold LinearFunction.apply.
  destruct (forward_run (mk_ctx None (requires_grad X, requires_grad W, false))
              X W None m n k w2 HX HW I) as (Y & w3 & E & _ & (HY & _) & Hv).
  eexists _, Y, w3. split; [exact E|]. split; [done|]. split.
  - intros i j Hi Hj. apply Hv; [apply preserved_refl|done..].
  - intros dY w4 r Hr.
    pose proof (keeps_backward 0
      (LinearFunction.save_for_backward
         (mk_ctx None (requires_grad X, requires_grad W, false)) X W None)
      dY w4 ltac:(lia)) as [_ Ha].
    destruct (Ha r Hr) as (_ & _ & _ & Hnone). by eapply Hnone.
Qed.

End module_claims.

(** ** The scenario, evaluated *)

Section scenario_claims.
Import Scenario.

(** C5: with W = [[2, 3]], b = [1] and X = [[1, 1]] the forward pass
    returns [[6]]; with dY = [[1]] the backward pass returns
    dX = [[2, 3]] and dW = [[1, 1]], and for the bias the value 1 in a
    tensor without any dimension, not a vector of length one. *)
Theorem scenario_forward_backward :
  ∃ ctx Y w1 dX dW db w2,
    LinearFunction.forward ctx0 X W (Some b) w0 = (Ok (ctx, Y), w1) ∧
    (sizes Y, values w1 Y) = ([1; 1], [6%Z]) ∧
    LinearFunction.backward ctx dY w1 = (Ok (Some dX, Some dW, Some db), w2) ∧
    (sizes dX, values w2 dX) = ([1; 2], [2; 3]%Z) ∧
    (sizes dW, values w2 dW) = ([1; 2], [1; 1]%Z) ∧
    (sizes db, values w2 db) = ([], [1%Z]).
Proof.
  do 7 eexists. split; [lazy; reflexivity|]. split; [lazy; reflexivity|].
  split; [lazy; reflexivity|]. repeat split; lazy; reflexivity.
Qed.

(** C3: for a batch of two samples and one output feature, with
    dY = [[4], [5]], the bias gradient holds the column sum 9, but its
    shape is (), not (output_features) = (1). *)
Theorem bias_gradient_loses_dimension :
  ∃ gi gw db w',
    LinearFunction.backward ctx2 dY2 w2 = (Ok (gi, gw, Some db), w') ∧
    (sizes db, values w' db) = ([], [9%Z]).
Proof. do 4 eexists. split; [lazy; reflexivity|]. lazy. reflexivity. Qed.

Lemma forward_affine_witness :
  ∃ ctx' Y w',
    LinearFunction.forward ctx0 X W (Some b) w0 = (Ok (ctx', Y), w') ∧
    sizes Y = [1; 1] ∧
    ∀ i j, i < 1 → j < 1 →
      matrix w' Y i j =
        sadd (mat_mul 2 (matrix w0 X) (transpose (matrix w0 W)) i j) (vector w0 b j).
Proof.
  apply (forward_affine ctx0 X W (Some b) 1 2 1 w0);
    unfold shaped_opt, shaped, live; cbn; repeat split; lia.
Defined.

Lemma backward_input_weight_witness :
  ∃ dX dW gb w',
    LinearFunction.backward ctx_all dY w0 = (Ok (Some dX, Some dW, gb), w') ∧
    sizes dX = [1; 2] ∧ sizes dW = [1; 2] ∧
    (∀ i l, i < 1 → l < 2 →
       matrix w' dX i l = mat_mul 1 (matrix w0 dY) (matrix w0 W) i l) ∧
    (∀ j l, j < 1 → l < 2 →
       matrix w' dW j l = mat_mul 1 (transpose (matrix w0 dY)) (matrix w0 X) j l).
Proof.
  apply (backward_input_weight ctx_all X W (Some b) dY 1 2 1 w0);
    unfold shaped, live; cbn; repeat split; lia.
Defined.

Lemma backward_skips_unrequested_witness :
  ∃ r w1 r' w1',
    LinearFunction.backward ctx_weight dY w0 = (Ok r, w1) ∧
    LinearFunction.backward ctx_all dY w0 = (Ok r', w1') ∧
    absent_unrequested ctx_weight r ∧ absent_unrequested ctx_all r' ∧
    ((needs_input_grad ctx_weight).1.1 = (needs_input_grad ctx_all).1.1 →
       denote w1 r.1.1 = denote w1' r'.1.1) ∧
    ((needs_input_grad ctx_weight).1.2 = (needs_input_grad ctx_all).1.2 →
       denote w1 r.1.2 = denote w1' r'.1.2) ∧
    ((needs_input_grad ctx_weight).2 = (needs_input_grad ctx_all).2 →
       denote w1 r.2 = denote w1' r'.2).
Proof.
  apply (backward_skips_unrequested ctx_weight ctx_all X W (Some b) dY 1 2 1 w0);
    unfold shaped, live; cbn; repeat split; lia.
Defined.

Lemma forward_backward_frame_witness :
  (∀ ctx,
     let r := LinearFunction.forward ctx X W (Some b) w0 in
     same_values w0 r.2 X ∧ same_values w0 r.2 W ∧ same_values_opt w0 r.2 (Some b) ∧
     unchanged_below (length (heap w0)) w0 r.2 ∧
     ∀ ctx' Y, r.1 = Ok (ctx', Y) →
       saved_tensors ctx' = Some (X, W, Some b) ∧
       needs_input_grad ctx' = needs_input_grad ctx) ∧
  (∀ ctx dY,
     saved_tensors ctx = Some (X, W, Some b) →
     let r := LinearFunction.backward ctx dY w0 in
     same_values w0 r.2 X ∧ same_values w0 r.2 W ∧ same_values_opt w0 r.2 (Some b) ∧
     unchanged_below (length (heap w0)) w0 r.2).
Proof.
  apply (forward_backward_frame X W (Some b) w0); unfold live_opt, live; cbn; lia.
Defined.

Lemma forward_rejects_wrong_columns_witness :
  ∃ self w1,
    Linear.__init__ 3 1 (Some true) wq = (Ok self, w1) ∧
    Linear.forward self X_two_columns w1
    = (Raise (RuntimeError (size_mismatch [1; 2] [3; 1])), w1).
Proof.
  eexists _, _. split; [apply init_with_bias|].
  eapply (forward_rejects_wrong_columns 3 1 (Some true) wq);
    [apply init_with_bias | reflexivity | lia].
Defined.

Lemma extra_repr_raises_witness :
  ∃ self w1,
    Linear.__init__ 2 1 (Some true) wq = (Ok self, w1) ∧
    self !! "in_features" = None ∧ self !! "out_features" = None ∧
    self !! "input_features" = Some (VInt 2) ∧ self !! "output_features" = Some (VInt 1) ∧
    Linear.extra_repr self w1 = (Raise (AttributeError "in_features"), w1).
Proof.
  eexists _, _. split; [apply init_with_bias|].
  eapply (extra_repr_raises 2 1 (Some true) wq). apply init_with_bias.
Defined.

End scenario_claims.

(** * Further properties of the calls *)

(** ** Sums over the integers, and the gradients as adjoints *)

Section adjoint.
Local Open Scope Z_scope.

Lemma big_sum_S {T : Type} `{!Scalar T} (n : nat) (f : nat → T) :
  big_sum (S n) f = sadd (big_sum n f) (f n).
Proof. unfold big_sum. by rewrite seq_S, foldl_app. Qed.

Lemma big_sum_ext_lt {T : Type} `{!Scalar T} (n : nat) (f g : nat → T) :
  (∀ l, (l < n)%nat → f l = g l) → big_sum n f = big_sum n g.
Proof.
  induction n as [|n IH]; intros E; [done|].
  rewrite !big_sum_S, IH, E by (intros; try apply E; lia). done.
Qed.

Lemma inner_ext_lt {T : Type} `{!Scalar T} (r c : nat) (A A' B B' : nat → nat → T) :
  (∀ i j, (i < r)%nat → (j < c)%nat → A i j = A' i j) →
  (∀ i j, (i < r)%nat → (j < c)%nat → B i j = B' i j) →
  inner r c A B = inner r c A' B'.
Proof.
  intros HA HB. apply big_sum_ext_lt. intros i Hi.
  apply big_sum_ext_lt. intros j Hj. by rewrite HA, HB.
Qed.

Lemma big_sum_add (n : nat) (f g : nat → Z) :
  big_sum n (fun l => f l + g l) = big_sum n f + big_sum n g.
Proof.
  induction n as [|n IH]; [done|]. rewrite !big_sum_S, IH. cbn. lia.
Qed.

Lemma big_sum_scale (n : nat) (c : Z) (f : nat → Z) :
  big_sum n (fun l => c * f l) = c * big_sum n f.
Proof.
  induction n as [|n IH]; [cbn; lia|]. rewrite !big_sum_S, IH. cbn. lia.
Qed.

Lemma big_sum_swap (r c : nat) (f : nat → nat → Z) :
  big_sum r (fun i => big_sum c (fun j => f i j))
  = big_sum c (fun j => big_sum r (fun i => f i j)).
Proof.
  induction r as [|r IH].
  - cbn. induction c as [|c IHc]; [done|]. rewrite big_sum_S, <- IHc. done.
  - rewrite big_sum_S, IH. cbn [sadd Z_scalar]. rewrite <- big_sum_add.
    apply big_sum_ext. intros j. by rewrite big_sum_S.
Qed.

Lemma adjoint_input (m n k : nat) (dY H W : nat → nat → Z) :
  inner m k dY (mat_mul n H (transpose W)) = inner m n (mat_mul k dY W) H.
Proof.
  unfold inner, mat_mul, transpose. apply big_sum_ext. intros i. cbn [smul Z_scalar].
  transitivity (big_sum k (fun j => big_sum n (fun l => dY i j * W j l * H i l))).
  { apply big_sum_ext. intros j. rewrite <- big_sum_scale.
    apply big_sum_ext. intros l. lia. }
  rewrite big_sum_swap. apply big_sum_ext. intros l.
  rewrite Z.mul_comm, <- big_sum_scale. apply big_sum_ext. intros j. lia.
Qed.

Lemma adjoint_weight (m n k : nat) (dY X V : nat → nat → Z) :
  inner m k dY (mat_mul n X (transpose V)) = inner k n (mat_mul m (transpose dY) X) V.
Proof.
  unfold inner, mat_mul, transpose. cbn [smul Z_scalar].
  transitivity (big_sum m (fun i => big_sum k (fun j =>
                  big_sum n (fun l => dY i j * X i l * V j l)))).
  { apply big_sum_ext. intros i. apply big_sum_ext. intros j.
    rewrite <- big_sum_scale. apply big_sum_ext. intros l. lia. }
  rewrite big_sum_swap. apply big_sum_ext. intros j.
  rewrite big_sum_swap. apply big_sum_ext. intros l.
  rewrite Z.mul_comm, <- big_sum_scale. apply big_sum_ext. intros i. lia.
Qed.

(** X11: over the integers, the input gradient is the adjoint of the
    bias-free forward pass in its input: for every H of the shape of X,
    the inner product of dY with forward(H, W) equals the inner product
    of dX with H. *)
Theorem input_gradient_adjoint (ctx ctxH : FunctionCtx) (X W : tensor) (b : option tensor)
    (dY H : tensor) (m n k : nat) (w : world Z) :
  saved_tensors ctx = Some (X, W, b) → (needs_input_grad ctx).1.1 = true →
  shaped w X [m; n] → shaped w W [k; n] → shaped w dY [m; k] → shaped w H [m; n] →
  ∃ dX gw gb w1 ctx' J w2,
    LinearFunction.backward ctx dY w = (Ok (Some dX, gw, gb), w1) ∧
    LinearFunction.forward ctxH H W None w = (Ok (ctx', J), w2) ∧
    inner m k (matrix w dY) (matrix w2 J) = inner m n (matrix w1 dX) (matrix w H).
Proof.
  intros Hsv H0 HX HW HdY HH.
  destruct (backward_run ctx X W b dY m n k w Hsv HX HW HdY)
    as (gi & gw & gb & w1 & E & _ & Gi & _).
  destruct (grad_ok_present _ _ _ Gi H0) as (dX & -> & _ & HdX).
  destruct (forward_run ctxH H W None m n k w HH HW I) as (J & w2 & EJ & _ & _ & HJ).
  exists dX, gw, gb, w1. eexists _, J, w2. split; [done|]. split; [done|].
  rewrite (inner_ext_lt m k _ (matrix w dY) _
             (mat_mul n (matrix w H) (transpose (matrix w W)))); [|done|].
  2:{ intros i j Hi Hj. apply HJ; [apply preserved_refl|done..]. }
  rewrite (inner_ext_lt m n _ (mat_mul k (matrix w dY) (matrix w W)) _ (matrix w H));
    [|done..].
  apply adjoint_input.
Qed.

(** X12: over the integers, the weight gradient is the adjoint of the
    bias-free forward pass in its weight: for every V of the shape of W,
    the inner product of dY with forward(X, V) equals the inner product
    of dW with V. *)
Theorem weight_gradient_adjoint (ctx ctxV : FunctionCtx) (X W : tensor) (b : option tensor)
    (dY V : tensor) (m n k : nat) (w : world Z) :
  saved_tensors ctx = Some (X, W, b) → (needs_input_grad ctx).1.2 = true →
  shaped w X [m; n] → shaped w W [k; n] → shaped w dY [m; k] → shaped w V [k; n] →
  ∃ gi dW gb w1 ctx' J w2,
    LinearFunction.backward ctx dY w = (Ok (gi, Some dW, gb), w1) ∧
    LinearFunction.forward ctxV X V None w = (Ok (ctx', J), w2) ∧
    inner m k (matrix w dY) (matrix w2 J) = inner k n (matrix w1 dW) (matrix w V).
Proof.
  intros Hsv H1 HX HW HdY HV.
  destruct (backward_run ctx X W b dY m n k w Hsv HX HW HdY)
    as (gi & gw & gb & w1 & E & _ & _ & Gw & _).
  destruct (grad_ok_present _ _ _ Gw H1) as (dW & -> & _ & HdW).
  destruct (forward_run ctxV X V None m n k w HX HV I) as (J & w2 & EJ & _ & _ & HJ).
  exists gi, dW, gb, w1. eexists _, J, w2. split; [done|]. split; [done|].
  rewrite (inner_ext_lt m k _ (matrix w dY) _
             (mat_mul n (matrix w X) (transpose (matrix w V)))); [|done|].
  2:{ intros i j Hi Hj. apply HJ; [apply preserved_refl|done..]. }
  rewrite (inner_ext_lt k n _ (mat_mul m (transpose (matrix w dY)) (matrix w X)) _
             (matrix w V)); [|done..].
  apply adjoint_weight.
Qed.

End adjoint.

(** ** The module's calls *)

Section construction_effects.
Context {T : Type} `{!Scalar T} `{!Random T}.

(** X10: what construction does to the world, whatever its outcome: it
    allocates the weight (and the bias when [bias] is true) after the
    existing storages, which it leaves alone, and takes one generator
    output per parameter entry.  With [bias=False] it raises only after
    the weight has been allocated and drawn. *)
Theorem init_effects (n k : nat) (flag : option bool) (w : world T) :
  let r := Linear.__init__ n k flag w in
  let bias := Linear.truthy flag in
  consumed r.2 = consumed w + k * n + (if bias then k else 0) ∧
  length (heap r.2) = length (heap w) + (if bias then 2 else 1) ∧
  preserved w r.2 ∧ generator r.2 = generator w ∧
  (flag = Some false → r.1 = Raise (AttributeError "data")) ∧
  (flag ≠ Some false → ∃ self, r.1 = Ok self).
Proof.
  destruct flag as [[|]|]; cbn zeta;
    rewrite ?init_with_bias, ?init_bias_False, ?init_without_bias;
    cbn; rewrite length_app; cbn;
    repeat split; first [lia | done | by eexists].
Qed.

End construction_effects.

Section module_calls.
Context {T : Type} `{!Scalar T} `{!Random T}.

(** A handle stays well shaped in every world that has at least as many
    storages, whatever was written into them since. *)
Lemma shaped_later (w w' : world T) (a : tensor) (shape : list nat) :
  shaped w a shape → length (heap w) ≤ length (heap w') → shaped w' a shape.
Proof.
  intros (Hs & Hst & Hl) Hlen. split; [done|]. split; [done|].
  unfold live in *. lia.
Qed.


(** What a successful construction returns: the weight, the bias when
    there is one, both parameters allocated and requiring a gradient. *)
Lemma init_parameters (n k : nat) (flag : option bool) (w w1 : world T)
    (self : gmap string value) :
  Linear.__init__ n k flag w = (Ok self, w1) →
  ∃ W bias,
    self = attributes n k W (from_option VTensor VNone bias) ∧
    shaped w1 W [k; n] ∧ shaped_opt w1 bias [k] ∧
    requires_grad W = true ∧ from_option requires_grad false bias = is_not_None bias ∧
    is_not_None bias = Linear.truthy flag.
Proof.
  destruct flag as [[|]|].
  - rewrite init_with_bias. intros [= <- <-].
    eexists _, (Some _). split; [done|].
    repeat split; unfold live; cbn; rewrite ?length_app; cbn; lia.
  - by rewrite init_bias_False.
  - rewrite init_without_bias. intros [= <- <-].
    eexists _, None. split; [done|].
    repeat split; unfold live; cbn; rewrite ?length_app; cbn; lia.
Qed.

Lemma module_forward_run (n k : nat) (W : tensor) (bias : option tensor) (X : tensor)
    (w : world T) :
  Linear.forward (attributes n k W (from_option VTensor VNone bias)) X w
  = LinearFunction.apply X W bias w.
Proof.
  unfold Linear.forward.
  rewrite (bind_ok _ _ _ _ _ (getattr_ok _ "weight" _ _ (attributes_weight n k _ _))).
  rewrite (bind_ok _ _ _ _ _ (getattr_ok _ "bias" _ _ (attributes_bias n k _ _))).
  by destruct bias.
Qed.

(** X1: the forward call of a constructed module on an input of shape
    (m, n), in any world that still holds the storages allocated at
    construction, whatever has been written into them since: it passes
    the module's own weight and bias to the autograd function, returns
    X · Wᵗ (plus the bias when the module has one) in shape (m, k), with
    the values the parameters have at the call, and the context retains X
    and the two parameters, with a gradient needed for the weight always,
    for the bias when there is one, and for the input when it requires
    one. *)
Theorem module_forward (n k : nat) (flag : option bool) (w w1 w2 : world T)
    (self : gmap string value) (X : tensor) (m : nat) :
  Linear.__init__ n k flag w = (Ok self, w1) →
  length (heap w1) ≤ length (heap w2) → shaped w2 X [m; n] →
  ∃ W bias ctx Y w3,
    self !! "weight" = Some (VTensor W) ∧
    self !! "bias" = Some (from_option VTensor VNone bias) ∧
    Linear.forward self X w2 = (Ok (ctx, Y), w3) ∧
    saved_tensors ctx = Some (X, W, bias) ∧
    needs_input_grad ctx = (requires_grad X, true, is_not_None bias) ∧
    sizes Y = [m; k] ∧
    ∀ i j, i < m → j < k →
      matrix w3 Y i j =
        match bias with
        | Some bt => sadd (mat_mul n (matrix w2 X) (transpose (matrix w2 W)) i j)
                          (vector w2 bt j)
        | None => mat_mul n (matrix w2 X) (transpose (matrix w2 W)) i j
        end.
Proof.
  intros Hinit Hlen HX.
  destruct (init_parameters n k flag w w1 self Hinit)
    as (W & bias & -> & HW & Hb & HWg & Hbg & _).
  assert (HW2 : shaped w2 W [k; n]) by by eapply shaped_later.
  assert (Hb2 : shaped_opt w2 bias [k]).
  { destruct bias; [|done]. by eapply shaped_later. }
  destruct (forward_run
              (mk_ctx None (requires_grad X, requires_grad W,
                            from_option requires_grad false bias))
              X W bias m n k w2 HX HW2 Hb2) as (Y & w3 & E & _ & (HY & _) & Hv).
  exists W, bias. eexists _, Y, w3.
  split; [apply attributes_weight|]. split; [apply attributes_bias|].
  split; [rewrite module_forward_run; exact E|].
  split; [done|]. split; [cbn; by rewrite HWg, Hbg|]. split; [done|].
  intros i j Hi Hj. apply Hv; [apply preserved_refl|done..].
Qed.


(** X17: which sample ends where.  Construction overwrites every entry of
    the weight, and of the bias when there is one, with its own sample of
    [uniform_(-0.1, 0.1)]: entry (i, j) of the weight is what the library
    makes of generator output number i * n + j after those consumed
    before, entry j of the bias of output number k * n + j.  The sampler
    is the library's, whatever it computes. *)
Theorem init_draws (n k : nat) (w : world T) :
  (∃ W b w',
     Linear.__init__ n k (Some true) w = (Ok (attributes n k W (VTensor b)), w') ∧
     sizes W = [k; n] ∧ sizes b = [k] ∧
     (∀ i j, i < k → j < n →
        matrix w' W i j
        = uniform_real (generator w (consumed w + (i * n + j))) (- (1 # 10)) (1 # 10)) ∧
     (∀ j, j < k →
        vector w' b j
        = uniform_real (generator w (consumed w + (k * n + j))) (- (1 # 10)) (1 # 10))) ∧
  (∃ W w',
     Linear.__init__ n k None w = (Ok (attributes n k W VNone), w') ∧
     sizes W = [k; n] ∧
     (∀ i j, i < k → j < n →
        matrix w' W i j
        = uniform_real (generator w (consumed w + (i * n + j))) (- (1 # 10)) (1 # 10))).
Proof.
  assert (HN : numel [k; n] = k * n) by (cbn; lia).
  assert (Hk : numel [k] = k) by (cbn; lia).
  assert (HD : ∀ (from to : Q) start count p, p < count →
    draws (T:=T) (generator w) from to start count !! p
    = Some (uniform_real (generator w (start + p)) from to)).
  { intros from to start count p Hp. unfold draws.
    by rewrite list_lookup_fmap, lookup_seq_lt. }
  split.
  - eexists _, _, _. split; [apply init_with_bias|]. split; [done|]. split; [done|].
    split.
    + intros i j Hi Hj. unfold matrix.
      erewrite element_fresh_2d by reflexivity.
      rewrite HD by (rewrite HN; nia). done.
    + intros j Hj. unfold vector.
      replace (S (length (heap w)))
        with (length (heap w ++ [draws (generator w) (- (1 # 10)) (1 # 10) (consumed w)
                                   (numel [k; n])]))
        by (rewrite length_app; cbn; lia).
      erewrite element_fresh_1d by (cbn [heap]; apply (app_assoc _ [_] [_])).
      rewrite HD by (rewrite Hk; lia). cbn [default from_option id].
      rewrite HN. do 2 f_equal. lia.
  - eexists _, _. split; [apply init_without_bias|]. split; [done|].
    intros i j Hi Hj. unfold matrix.
    erewrite element_fresh_2d by reflexivity.
    rewrite HD by (rewrite HN; nia). done.
Qed.

End module_calls.

(** ** Shapes the calls reject, and shapes they let through *)

Section edge_cases.
Context {T : Type} `{!Scalar T}.

Lemma unpack_saved_run (ctx : FunctionCtx) (s : tensor * tensor * option tensor)
    (w : world T) :
  saved_tensors ctx = Some s → LinearFunction.unpack_saved ctx w = (Ok s, w).
Proof. intros E. unfold LinearFunction.unpack_saved. by rewrite E. Qed.

(** X3: when the input gradient is requested, a gradient dY whose number of
    columns is not the number of rows of the retained weight makes
    [backward] raise the size-mismatch error before anything is
    allocated. *)
Theorem backward_rejects_wrong_columns (ctx : FunctionCtx) (X W : tensor)
    (b : option tensor) (dY : tensor) (m' k' k n : nat) (w : world T) :
  saved_tensors ctx = Some (X, W, b) → (needs_input_grad ctx).1.1 = true →
  sizes dY = [m'; k'] → sizes W = [k; n] → k' ≠ k →
  LinearFunction.backward ctx dY w
  = (Raise (RuntimeError (size_mismatch [m'; k'] [k; n])), w).
Proof.
  intros Hsv H0 HdY HW Hk. unfold LinearFunction.backward.
  rewrite (bind_ok _ _ _ _ _ (unpack_saved_run ctx _ w Hsv)). cbn [fst snd].
  rewrite H0. apply bind_raise. apply bind_raise. by apply mm_mismatch.
Qed.

(** X4: when only the weight gradient is requested, [backward] never
    compares dY with the weight: for a dY with any number k' of columns it
    returns dYᵗ · X of shape (k', n), whatever the shape of the weight. *)
Theorem backward_weight_only_unchecked (ctx : FunctionCtx) (X W : tensor)
    (b : option tensor) (dY : tensor) (m n k' : nat) (w : world T) :
  saved_tensors ctx = Some (X, W, b) →
  (needs_input_grad ctx).1.1 = false → (needs_input_grad ctx).1.2 = true →
  sizes dY = [m; k'] → length (strides dY) = 2 → sizes X = [m; n] →
  ∃ dW gb w',
    LinearFunction.backward ctx dY w = (Ok (None, Some dW, gb), w') ∧
    is_matrix w' dW k' n (mat_mul m (transpose (matrix w dY)) (matrix w X)).
Proof.
  intros Hsv H0 H1 HdY HdYs HX. unfold LinearFunction.backward.
  rewrite (bind_ok _ _ _ _ _ (unpack_saved_run ctx _ w Hsv)). cbn [fst snd].
  rewrite H0, H1.
  erewrite bind_ok by reflexivity.
  destruct (grad_weight_step true dY X m n k' w HdY HdYs HX) as (gw & w1 & E1 & _ & G1).
  rewrite (bind_ok _ _ _ _ _ E1).
  destruct (grad_bias_cond_step (is_not_None b && (needs_input_grad ctx).2) dY m k' w1 HdY)
    as (gb & w2 & E2 & Hp2 & _).
  rewrite (bind_ok _ _ _ _ _ E2).
  destruct (grad_ok_present _ _ _ (G1 w2 Hp2) eq_refl) as (dW & -> & HdW).
  by exists dW, gb, w2.
Qed.

(** X5: a gradient dY whose number of rows is not the batch size of the
    retained input makes the weight-gradient product raise the
    size-mismatch error. *)
Theorem backward_rejects_wrong_rows (ctx : FunctionCtx) (X W : tensor)
    (b : option tensor) (dY : tensor) (m m' n k' : nat) (w : world T) :
  saved_tensors ctx = Some (X, W, b) →
  (needs_input_grad ctx).1.1 = false → (needs_input_grad ctx).1.2 = true →
  sizes dY = [m'; k'] → length (strides dY) = 2 → sizes X = [m; n] → m' ≠ m →
  LinearFunction.backward ctx dY w
  = (Raise (RuntimeError (size_mismatch [k'; m'] [m; n])), w).
Proof.
  intros Hsv H0 H1 HdY HdYs HX Hm. unfold LinearFunction.backward.
  rewrite (bind_ok _ _ _ _ _ (unpack_saved_run ctx _ w Hsv)). cbn [fst snd].
  rewrite H0, H1.
  erewrite bind_ok by reflexivity.
  destruct (t_run dY m' k' w HdY HdYs) as (gt & Et & Hgt & _).
  apply bind_raise. rewrite (bind_ok _ _ _ _ _ Et).
  apply bind_raise. by apply mm_mismatch.
Qed.

(** X6: [forward] accepts 2-D inputs only: a 0-D, 1-D or higher-dimensional
    input makes the matrix product raise, and nothing is allocated. *)
Theorem forward_rejects_non_matrix (ctx : FunctionCtx) (X W : tensor)
    (b : option tensor) (k n : nat) (w : world T) :
  sizes W = [k; n] → length (strides W) = 2 → length (sizes X) ≠ 2 →
  LinearFunction.forward ctx X W b w
  = (Raise (RuntimeError (not_a_matrix (sizes X))), w).
Proof.
  intros HW HWs HX. unfold LinearFunction.forward.
  destruct (t_run W k n w HW HWs) as (Wt & Et & HWt & _).
  rewrite (bind_ok _ _ _ _ _ Et). apply bind_raise.
  unfold mm. rewrite HWt. by destruct (sizes X) as [|? [|? [|? ?]]].
Qed.

(** X7: a bias whose length is neither the number of outputs nor 1 cannot
    be expanded to the output: [forward] raises after the product has
    been allocated, leaving all earlier storages as they were. *)
Theorem forward_rejects_bias_length (ctx : FunctionCtx) (X W b : tensor)
    (m n k k' : nat) (w : world T) :
  sizes X = [m; n] → sizes W = [k; n] → length (strides W) = 2 →
  sizes b = [k'] → length (strides b) = 1 → k' ≠ k → k' ≠ 1 →
  ∃ w', LinearFunction.forward ctx X W (Some b) w
        = (Raise (RuntimeError (not_expandable [1; k'] [m; k])), w') ∧
        preserved w w'.
Proof.
  intros HX HW HWs Hb Hbs Hk Hk1. unfold LinearFunction.forward.
  destruct (t_run W k n w HW HWs) as (Wt & Et & HWt & _).
  rewrite (bind_ok _ _ _ _ _ Et).
  rewrite (bind_ok _ _ _ _ _ (mm_run X Wt m n k w HX HWt)).
  eexists. split; [|apply preserved_alloc].
  apply bind_raise. erewrite bind_ok by reflexivity. apply bind_raise.
  destruct (strides b) as [|sb [|]] eqn:Ebs; try done.
  unfold expand_as, expand. cbn [sizes strides with_view]. rewrite Hb. cbn.
  by rewrite !decide_False by done.
Qed.

End edge_cases.

Section broadcast.
Context {T : Type} `{!Scalar T}.

Lemma expand_single (u : tensor) (m k st sb : nat) (w : world T) :
  sizes u = [1; 1] → strides u = [st; sb] →
  ∃ st' sb', expand u [m; k] w = (Ok (with_view u [m; k] [st'; sb']), w) ∧
             (∀ i, i < m → i * st' = 0) ∧ (∀ j, j < k → j * sb' = 0).
Proof.
  intros Hu Hs. unfold expand. rewrite Hu, Hs. cbn.
  destruct (decide (1 = k)) as [<-|Hk], (decide (1 = m)) as [<-|Hm];
    rewrite ?decide_True by done; cbn; eexists _, _; (split; [done|]);
    split; intros x Hx; lia.
Qed.

(** X8: a bias of length 1 is accepted for any number of outputs: its one
    element is added to every entry of X · Wᵗ. *)
Theorem forward_broadcasts_single_bias (ctx : FunctionCtx) (X W b : tensor)
    (m n k : nat) (w : world T) :
  shaped w X [m; n] → shaped w W [k; n] → shaped w b [1] →
  ∃ ctx' Y w',
    LinearFunction.forward ctx X W (Some b) w = (Ok (ctx', Y), w') ∧
    sizes Y = [m; k] ∧
    ∀ i j, i < m → j < k →
      matrix w' Y i j =
        sadd (mat_mul n (matrix w X) (transpose (matrix w W)) i j) (vector w b 0).
Proof.
  intros (HX & HXs & HXl) (HW & HWs & HWl) (Hb & Hbs & Hbl).
  unfold LinearFunction.forward, bind.
  destruct (t_run W k n w HW HWs) as (Wt & -> & HWt & HWts & HWtl & HWte).
  rewrite (mm_run X Wt m n k w HX HWt).
  set (D := mm_data w X Wt m n k).
  set (w1 := set_heap (heap w ++ [D]) w).
  assert (HD : ∀ i j, i < m → j < k →
    D !! (i * k + j) = Some (mat_mul n (matrix w X) (transpose (matrix w W)) i j)).
  { intros i j Hi Hj. unfold D. rewrite mm_data_lookup by done. f_equal.
    apply mat_mul_ext; [done|]. intros l. apply HWte. }
  destruct (strides b) as [|sb [|]] eqn:Ebs; try done.
  unfold unsqueeze0, ret, expand_as. rewrite Hb, Ebs.
  set (u := with_view b [1; 1] [1 * sb; sb]).
  destruct (expand_single u m k (1 * sb) sb w1 eq_refl eq_refl)
    as (st' & sb' & He & Hst' & Hsb').
  cbn [sizes]. rewrite He.
  rewrite (iadd_fresh _ _ (heap w) D m k _ w1 eq_refl (length_mm_data _ _ _ _ _ _) eq_refl)
    by done.
  eexists _, _, _. split; [done|]. split; [done|].
  intros i j Hi Hj. unfold matrix.
  erewrite element_fresh_2d by (cbn [heap set_heap]; reflexivity).
  rewrite list_lookup_fmap, indices_2d_lookup by done.
  cbn [fmap option_fmap option_map default from_option id].
  f_equal.
  - rewrite (element_fresh_2d w1 (heap w) D [] m k i j _) by done.
    by rewrite HD.
  - unfold vector. rewrite <- (element_frame w w1 b [0] Hbl (preserved_alloc w D)).
    unfold element, address. cbn. rewrite Ebs. cbn.
    rewrite (Hst' i Hi), (Hsb' j Hj). done.
Qed.

Lemma flat_rows_constant (x : T) (r c : nat) :
  flat_map (fun _ : nat => map (fun _ : nat => x) (seq 0 c)) (seq 0 r) = replicate (r * c) x.
Proof.
  assert (Hc : ∀ s, map (fun _ : nat => x) (seq s c) = replicate c x).
  { induction c as [|c IH]; intros s; [done|]. cbn. by rewrite IH. }
  generalize 0 at 2. induction r as [|r IH]; intros s; [done|].
  cbn [seq flat_map]. rewrite IH, Hc. cbn. by rewrite replicate_add.
Qed.

(** X9: on a batch without rows [forward] returns an empty output of shape
    (0, k), and [backward] returns a weight gradient and a bias gradient
    that are zero everywhere. *)
Theorem empty_batch (ctx : FunctionCtx) (X W : tensor) (b : option tensor)
    (dY : tensor) (n k : nat) (w : world T) :
  shaped w X [0; n] → shaped w W [k; n] → shaped_opt w b [k] →
  shaped w dY [0; k] → (needs_input_grad ctx).1.2 = true →
  (∃ ctx' Y w',
     LinearFunction.forward ctx X W b w = (Ok (ctx', Y), w') ∧
     sizes Y = [0; k] ∧ values w' Y = []) ∧
  (∃ gi dW gb w',
     LinearFunction.backward (LinearFunction.save_for_backward ctx X W b) dY w
     = (Ok (gi, Some dW, gb), w') ∧
     sizes dW = [k; n] ∧ values w' dW = replicate (k * n) szero ∧
     ∀ db, gb = Some db → values w' db = replicate k szero).
Proof.
  intros HX HW Hb HdY H1. split.
  - destruct (forward_run ctx X W b 0 n k w HX HW Hb) as (Y & w' & E & _ & (HY & _) & Hv).
    eexists _, Y, w'. split; [done|]. split; [done|].
    unfold values. by rewrite HY.
  - destruct (backward_run (LinearFunction.save_for_backward ctx X W b) X W b dY 0 n k w
                eq_refl HX HW HdY) as (gi & gw & gb & w' & E & _ & _ & Gw & Gb).
    cbn [needs_input_grad LinearFunction.save_for_backward] in Gw, Gb.
    destruct (grad_ok_present _ _ _ Gw H1) as (dW & -> & HdW).
    exists gi, dW, gb, w'. split; [done|]. split; [by destruct HdW|]. split.
    + rewrite (is_matrix_values _ _ _ _ _ HdW).
      apply (flat_rows_constant szero k n).
    + intros db ->. cbn in Gb. destruct Gb as [_ Gb].
      rewrite (is_bias_grad_values _ _ _ _ Gb).
      pose proof (flat_rows_constant szero 1 k) as G. cbn in G.
      rewrite app_nil_r, Nat.add_0_r in G. exact G.
Qed.

End broadcast.

(** ** Instances *)

Section extra_witnesses.
Import Scenario Cases.

Ltac shapes := unfold shaped_opt, shaped, live; cbn; repeat split; lia.

Lemma module_forward_witness :
  ∃ self w1,
    Linear.__init__ 2 1 (Some true) wq = (Ok self, w1) ∧
    ∃ W bias ctx Y w3,
      self !! "weight" = Some (VTensor W) ∧
      self !! "bias" = Some (from_option VTensor VNone bias) ∧
      Linear.forward self X_two_columns w1 = (Ok (ctx, Y), w3) ∧
      saved_tensors ctx = Some (X_two_columns, W, bias) ∧
      needs_input_grad ctx = (requires_grad X_two_columns, true, is_not_None bias) ∧
      sizes Y = [1; 1] ∧
      ∀ i j, i < 1 → j < 1 →
        matrix w3 Y i j =
          match bias with
          | Some bt =>
              sadd (mat_mul 2 (matrix w1 X_two_columns) (transpose (matrix w1 W)) i j)
                   (vector w1 bt j)
          | None => mat_mul 2 (matrix w1 X_two_columns) (transpose (matrix w1 W)) i j
          end.
Proof.
  eexists _, _. split; [apply init_with_bias|].
  eapply (module_forward 2 1 (Some true) wq);
    [apply init_with_bias | lia | shapes].
Defined.


Lemma backward_rejects_wrong_columns_witness :
  LinearFunction.backward ctx_all X w0
  = (Raise (RuntimeError (size_mismatch [1; 2] [1; 2])), w0).
Proof.
  apply (backward_rejects_wrong_columns ctx_all X W (Some b) X 1 2 1 2 w0);
    first [reflexivity | lia].
Defined.

Lemma backward_weight_only_unchecked_witness :
  ∃ dW gb w',
    LinearFunction.backward ctx_weight X w0 = (Ok (None, Some dW, gb), w') ∧
    is_matrix w' dW 2 2 (mat_mul 1 (transpose (matrix w0 X)) (matrix w0 X)).
Proof.
  apply (backward_weight_only_unchecked ctx_weight X W (Some b) X 1 2 2 w0);
    reflexivity.
Defined.

Lemma backward_rejects_wrong_rows_witness :
  LinearFunction.backward ctx_weight X2 w0
  = (Raise (RuntimeError (size_mismatch [2; 2] [1; 2])), w0).
Proof.
  apply (backward_rejects_wrong_rows ctx_weight X W (Some b) X2 1 2 2 2 w0);
    first [reflexivity | lia].
Defined.

Lemma forward_rejects_non_matrix_witness :
  LinearFunction.forward ctx0 b W (Some b) w0
  = (Raise (RuntimeError (not_a_matrix [1])), w0).
Proof.
  apply (forward_rejects_non_matrix ctx0 b W (Some b) 1 2 w0); first [reflexivity | cbn; lia].
Defined.

Lemma forward_rejects_bias_length_witness :
  ∃ w', LinearFunction.forward ctx0 X W (Some pair) w0
        = (Raise (RuntimeError (not_expandable [1; 2] [1; 1])), w') ∧
        preserved w0 w'.
Proof.
  apply (forward_rejects_bias_length ctx0 X W pair 1 2 1 2 w0); first [reflexivity | lia].
Defined.

Lemma forward_broadcasts_single_bias_witness :
  ∃ ctx' Y w',
    LinearFunction.forward ctx0 X2 W_square (Some b2) w2 = (Ok (ctx', Y), w') ∧
    sizes Y = [2; 2] ∧
    ∀ i j, i < 2 → j < 2 →
      matrix w' Y i j =
        sadd (mat_mul 2 (matrix w2 X2) (transpose (matrix w2 W_square)) i j) (vector w2 b2 0).
Proof.
  apply (forward_broadcasts_single_bias ctx0 X2 W_square b2 2 2 2 w2); shapes.
Defined.

Lemma empty_batch_witness :
  (∃ ctx' Y w',
     LinearFunction.forward ctx0 no_rows W (Some b) w0 = (Ok (ctx', Y), w') ∧
     sizes Y = [0; 1] ∧ values w' Y = []) ∧
  (∃ gi dW gb w',
     LinearFunction.backward (LinearFunction.save_for_backward ctx0 no_rows W (Some b))
       no_rows_out w0
     = (Ok (gi, Some dW, gb), w') ∧
     sizes dW = [1; 2] ∧ values w' dW = replicate (1 * 2) szero ∧
     ∀ db, gb = Some db → values w' db = replicate 1 szero).
Proof.
  apply (empty_batch ctx0 no_rows W (Some b) no_rows_out 2 1 w0); first [reflexivity | shapes].
Defined.

Lemma input_gradient_adjoint_witness :
  ∃ dX gw gb w1 ctx' J w2',
    LinearFunction.backward ctx_all dY w0 = (Ok (Some dX, gw, gb), w1) ∧
    LinearFunction.forward ctx0 X W None w0 = (Ok (ctx', J), w2') ∧
    inner 1 1 (matrix w0 dY) (matrix w2' J) = inner 1 2 (matrix w1 dX) (matrix w0 X).
Proof.
  apply (input_gradient_adjoint ctx_all ctx0 X W (Some b) dY X 1 2 1 w0);
    first [reflexivity | shapes].
Defined.

Lemma weight_gradient_adjoint_witness :
  ∃ gi dW gb w1 ctx' J w2',
    LinearFunction.backward ctx_all dY w0 = (Ok (gi, Some dW, gb), w1) ∧
    LinearFunction.forward ctx0 X W None w0 = (Ok (ctx', J), w2') ∧
    inner 1 1 (matrix w0 dY) (matrix w2' J) = inner 1 2 (matrix w1 dW) (matrix w0 W).
Proof.
  apply (weight_gradient_adjoint ctx_all ctx0 X W (Some b) dY W 1 2 1 w0);
    first [reflexivity | shapes].
Defined.

Lemma backward_bias_gradient_witness :
  ∃ gi gw db w',
    LinearFunction.backward ctx_square X2 w2 = (Ok (gi, gw, Some db), w') ∧
    sizes db = (if decide (2 = 1) then [] else [2]) ∧
    values w' db = map (column_sum 2 (matrix w2 X2)) (seq 0 2).
Proof.
  apply (backward_bias_gradient ctx_square X2 W_square b2 X2 2 2 2 w2);
    first [reflexivity | shapes].
Defined.

Lemma backward_absent_always_witness :
  absent_unrequested ctx_weight
    (None, Some (mk_tensor 4 0 [1; 2] [2; 1] false), None).
Proof.
  apply (backward_absent_always ctx_weight dY w0). reflexivity.
Defined.

End extra_witnesses.
